(** * QVM long-only: universe screen, rank pipeline and weekly rebalance

    A shallow embedding of [QVM_Long_Only.py].  The algorithm is written
    against a pipeline platform: the platform hands in one row per
    security and evaluates the column expressions built in
    [make_pipeline]; the callbacks [before_trading_start] and [rebalance]
    read and write a [context] object.

    Conventions of the embedding:
    - a numeric cell is an [fval]: [Some q] for a number, [None] for
      NaN / missing.  Ranks are counts or half-counts, their sums stay
      exact in double precision, so [Q] represents them faithfully;
    - the one quotient the source takes is a double-precision division:
      its cells are binary64 values ([spec_float]), rounded to nearest
      even, with infinities and NaN;
    - a column is a list aligned with the rows of the day's table, as the
      platform's row vectors are;
    - the platform primitives the source calls ([>] on a column,
      [startswith], [rank(method='average')], [top], [+], [/]) are
      given by their documented element-wise meaning;
    - [rebalance] produces the sequence of platform calls it makes
      ([order_target_percent], [log.info]). *)

From Stdlib Require Import String Ascii.
From Stdlib Require Import List Bool Arith ZArith QArith Lia.
From Stdlib Require Import Permutation Sorted.
From Stdlib Require Import Floats.SpecFloat.
Import ListNotations.

Local Open Scope nat_scope.

(** ** Cells and element-wise comparisons *)

Abbreviation security := nat (only parsing).

(** A float cell: [None] is NaN. *)
Abbreviation fval := (option Q) (only parsing).

Definition Qltb (a b : Q) : bool := negb (Qle_bool b a).

(** [column > c]: NaN compares false. *)
Definition fgt (v : fval) (c : Q) : bool :=
  match v with
  | Some x => Qltb c x
  | None => false
  end.

(** [a + b] on cells: NaN is absorbing. *)
Definition fadd (a b : fval) : fval :=
  match a, b with
  | Some x, Some y => Some (x + y)%Q
  | _, _ => None
  end.

(** Double precision: 53 bits of mantissa, exponents below 1024. *)
Definition prec : Z := 53.
Definition emax : Z := 1024.

Definition double_of_Z (n : Z) : spec_float :=
  binary_normalize prec emax n 0 false.

(** The double a cell holds.  A number whose denominator is a power of
    two is taken as it stands (every double is such a number); any other
    number is rounded to the nearest double. *)
Definition double_of_Q (q : Q) : spec_float :=
  let d := Zpos (Qden q) in
  let k := Z.log2 d in
  if Z.eqb d (Z.pow 2 k)
  then binary_normalize prec emax (Qnum q) (- k) false
  else SFdiv prec emax (double_of_Z (Qnum q)) (double_of_Z d).

Definition double_of_cell (v : fval) : spec_float :=
  match v with
  | Some x => double_of_Q x
  | None => S754_nan
  end.

(** [a / b] on cells: the division of doubles, rounded to nearest even;
    a zero divisor gives an infinity, or NaN for 0 / 0, and NaN is
    absorbing. *)
Definition fdiv (a b : fval) : spec_float :=
  SFdiv prec emax (double_of_cell a) (double_of_cell b).

(** String classifier [startswith]: a missing label never matches. *)
Definition startswith (v : option string) (p : string) : bool :=
  match v with
  | Some s => String.prefix p s
  | None => false
  end.

(** ** Rows of the day's table *)

Record SecurityRecord := mkSecurityRecord {
  sid : security;
  market_cap : fval;          (* Fundamentals.market_cap.latest *)
  close : fval;               (* USEquityPricing.close.latest *)
  dollar_volume : fval;       (* AverageDollarVolume(window_length=20) *)
  exchange_id : option string;(* share_class_reference.exchange_id.latest *)
  roe : fval;                 (* Fundamentals.roe.latest *)
  fcf_yield : fval;           (* Fundamentals.fcf_yield.latest *)
  fcf_per_share : fval;       (* Fundamentals.fcf_per_share.latest *)
  ret_20 : fval               (* Returns(window_length=20) *)
}.

Abbreviation Table := (list SecurityRecord) (only parsing).

(** ** min_liq_univ *)

Definition min_liq_univ (r : SecurityRecord) : bool :=
  let mktcap := market_cap r in
  let mktcap_screen := fgt mktcap 50000000 in
  let price_close := close r in
  let price_screen := fgt price_close 1 in
  let volume_screen := fgt (dollar_volume r) 200000 in
  let not_otc := negb (startswith (exchange_id r) "OTC") in
  mktcap_screen && price_screen && volume_screen && not_otc.

(** The same screen with its four literals taken as arguments; the
    source's screen is its instance at the literals
    ([min_liq_univ_literals] below). *)
Record ScreenParams := mkScreenParams {
  minCap : Q;
  minPrice : Q;
  minVolume : Q;
  otcPrefix : string
}.

Definition liq_univ_with (p : ScreenParams) (r : SecurityRecord) : bool :=
  fgt (market_cap r) (minCap p) && fgt (close r) (minPrice p)
  && fgt (dollar_volume r) (minVolume p)
  && negb (startswith (exchange_id r) (otcPrefix p)).

Definition source_params : ScreenParams :=
  mkScreenParams 50000000 1 200000 "OTC".

(** Number of rows a filter column admits. *)
Definition count_true (m : list bool) : nat := length (filter (fun b => b) m).

Definition universe_size (t : Table) : nat := count_true (map min_liq_univ t).

(** ** Rank engine

    [Factor.rank(method, mask)] blanks the cells outside the mask, ranks
    each row with [rankdata] and writes NaN back at every blanked or
    missing cell.  NaN cells sort last, so the ranks of the remaining
    cells are the ranks among those cells alone. *)

Abbreviation Column := (list (option Q)) (only parsing).
Abbreviation Filter := (list bool) (only parsing).

Fixpoint map2 {A B C : Type} (f : A -> B -> C) (l1 : list A) (l2 : list B)
  : list C :=
  match l1, l2 with
  | a :: l1', b :: l2' => f a b :: map2 f l1' l2'
  | _, _ => []
  end.

(** [data[~mask] = nan] *)
Definition mask_data (data : Column) (mask : Filter) : Column :=
  map2 (fun v (m : bool) => if m then v else None) data mask.

(** The cells that take part in a ranking, in row order. *)
Fixpoint present (data : Column) : list Q :=
  match data with
  | [] => []
  | Some x :: rest => x :: present rest
  | None :: rest => present rest
  end.

Definition count_lt (x : Q) (l : list Q) : nat :=
  length (filter (fun y => Qltb y x) l).
Definition count_le (x : Q) (l : list Q) : nat :=
  length (filter (fun y => Qle_bool y x) l).
Definition count_eq (x : Q) (l : list Q) : nat :=
  length (filter (fun y => Qeq_bool y x) l).
Definition count_gt (x : Q) (l : list Q) : nat :=
  length (filter (fun y => Qltb x y) l).

(** [rankdata(method='average')]: in the sorted array the cells equal to
    [x] start after the [count_lt] smaller ones and end at [count_le];
    the rank is [.5 * (count_le + count_lt + 1)]. *)
Definition average_rank (ps : list Q) (x : Q) : Q :=
  Z.of_nat (count_le x ps + count_lt x ps + 1) # 2.

Definition rankdata_average (data : Column) : Column :=
  let ps := present data in
  map (fun v => match v with
                | Some x => Some (average_rank ps x)
                | None => None
                end) data.

Definition rank_average (data : Column) (mask : Filter) : Column :=
  rankdata_average (mask_data data mask).

(** [rank(ascending=False)] with the default ordinal method, as [top]
    uses it: the array is negated and sorted by a stable sort, so among
    equal cells the earlier row gets the smaller rank.  [seen] holds the
    ranked cells of the rows already passed. *)
Fixpoint rankdata_ordinal_desc (ps seen : list Q) (data : Column)
  : list (option nat) :=
  match data with
  | [] => []
  | None :: rest => None :: rankdata_ordinal_desc ps seen rest
  | Some x :: rest =>
      Some (1 + count_gt x ps + count_eq x seen)
      :: rankdata_ordinal_desc ps (x :: seen) rest
  end.

Definition rank_ordinal_desc (data : Column) (mask : Filter)
  : list (option nat) :=
  let d := mask_data data mask in
  rankdata_ordinal_desc (present d) [] d.

(** [rank <= N]; a NaN rank compares false. *)
Definition rank_le (N : nat) (r : option nat) : bool :=
  match r with
  | Some k => k <=? N
  | None => false
  end.

(** [Factor.top(N, mask)] is [rank(ascending=False, mask=mask) <= N]. *)
Definition top (N : nat) (data : Column) (mask : Filter) : Filter :=
  map (rank_le N) (rank_ordinal_desc data mask).

(** *** Ordinal positions in the sorted array *)

Fixpoint insert (x : Q) (l : list Q) : list Q :=
  match l with
  | [] => [x]
  | y :: rest => if Qle_bool x y then x :: l else y :: insert x rest
  end.

Fixpoint sort (l : list Q) : list Q :=
  match l with
  | [] => []
  | x :: rest => insert x (sort rest)
  end.

(** The positions, counted from [k], of the cells of [l] equal to [x]. *)
Fixpoint positions_from (k : nat) (x : Q) (l : list Q) : list nat :=
  match l with
  | [] => []
  | y :: rest =>
      if Qeq_bool y x then k :: positions_from (S k) x rest
      else positions_from (S k) x rest
  end.

(** The ordinal ranks (1-based positions in ascending order) that the
    cells tied with [x] occupy together. *)
Definition ordinal_positions (ps : list Q) (x : Q) : list nat :=
  positions_from 1 x (sort ps).

Definition sum_nat (l : list nat) : nat := fold_right Nat.add 0 l.

(** ** make_pipeline *)

Definition universe (t : Table) : Filter := map min_liq_univ t.

Definition quality (t : Table) : Column :=
  rank_average (map roe t) (universe t).
Definition value (t : Table) : Column :=
  rank_average (map fcf_yield t) (universe t).
Definition momentum (t : Table) : Column :=
  rank_average (map ret_20 t) (universe t).

(** [quality + value + momentum] *)
Definition composite_raw (t : Table) : Column :=
  map2 fadd (map2 fadd (quality t) (value t)) (momentum t).

Definition qvm (t : Table) : Column :=
  rank_average (composite_raw t) (universe t).

Definition long_10 (t : Table) : Filter :=
  top 10 (qvm t) (universe t).

Definition fcf_yield_manual (t : Table) : list spec_float :=
  map2 fdiv (map fcf_per_share t) (map close t).

(** One row of the pipeline's output frame.  The quantile columns and
    [short_10] of the source are built but not put into the frame. *)
Record OutputRow := mkOutputRow {
  row_sid : security;
  out_mktcap : fval;
  out_fcf_yield : fval;
  out_fcf_yield_manual : spec_float;
  out_roe : fval;
  out_ret_20 : fval;
  out_quality : fval;
  out_value : fval;
  out_momentum : fval;
  out_qvm : fval;
  out_long_10 : bool
}.

Definition output_row (t : Table) (i : nat) : OutputRow :=
  {| row_sid := nth i (map sid t) 0;
     out_mktcap := nth i (map market_cap t) None;
     out_fcf_yield := nth i (map fcf_yield t) None;
     out_fcf_yield_manual := nth i (fcf_yield_manual t) S754_nan;
     out_roe := nth i (map roe t) None;
     out_ret_20 := nth i (map ret_20 t) None;
     out_quality := nth i (quality t) None;
     out_value := nth i (value t) None;
     out_momentum := nth i (momentum t) None;
     out_qvm := nth i (qvm t) None;
     out_long_10 := nth i (long_10 t) false |}.

(** The frame keeps the rows that pass [screen = min_liq_univ()]. *)
Definition make_pipeline (t : Table) : list OutputRow :=
  map (output_row t)
      (filter (fun i => nth i (universe t) false) (seq 0 (length t))).

(** ** The context object and the callbacks *)

(** [context.portfolio.positions]: the held securities with the weight
    each is held at, in the dictionary's order. *)
Abbreviation Positions := (list (nat * Q)) (only parsing).

Record Context := mkContext {
  output : list OutputRow;
  security_list : list security;
  longs : list security;
  positions : Positions
}.

Definition before_trading_start (context : Context) (t : Table) : Context :=
  let out := make_pipeline t in
  {| output := out;
     security_list := map row_sid out;
     longs := map row_sid (filter out_long_10 out);
     positions := positions context |}.

Definition mem (s : security) (l : list security) : bool :=
  existsb (Nat.eqb s) l.

(** [security in my_positions] *)
Definition held (s : security) (ps : Positions) : bool :=
  mem s (map fst ps).

Definition held_weight (s : security) (ps : Positions) : option Q :=
  match find (fun p => Nat.eqb s (fst p)) ps with
  | Some p => Some (snd p)
  | None => None
  end.

Inductive message :=
| OpeningLongs (w : Q) (symbols : list security)
| DidntOpen (s : security)
| ClosingPositions (symbols : list security).

(** The platform calls a callback makes, in order. *)
Inductive call :=
| order_target_percent (s : security) (w : Q)
| log_info (m : message).

Definition long_weight : Q := 1 # 10.

Definition rebalance (context : Context) (can_trade : security -> bool)
  : list call :=
  let my_positions := positions context in
  let target_long_symbols := longs context in
  let opening :=
    flat_map (fun security =>
                if can_trade security then
                  if negb (held security my_positions)
                  then [order_target_percent security long_weight]
                  else [log_info (DidntOpen security)]
                else [])
             (longs context) in
  let closed_positions :=
    filter (fun security =>
              negb (mem security (longs context)) && can_trade security)
           (map fst my_positions) in
  log_info (OpeningLongs long_weight target_long_symbols)
  :: opening
  ++ map (fun security => order_target_percent security 0) closed_positions
  ++ [log_info (ClosingPositions closed_positions)].

Definition record_vars (context : Context) : nat :=
  length (positions context).

(** The orders among the calls. *)
Fixpoint orders (cs : list call) : list (security * Q) :=
  match cs with
  | [] => []
  | order_target_percent s w :: rest => (s, w) :: orders rest
  | log_info _ :: rest => orders rest
  end.

(** *** The portfolio once orders are filled in full

    [order_target_percent s w] filled in full leaves [s] held at weight
    [w]; a target of zero leaves no position in [s]. *)
Fixpoint set_weight (s : security) (w : Q) (ps : Positions) : Positions :=
  match ps with
  | [] => [(s, w)]
  | (s', w') :: rest =>
      if Nat.eqb s s' then (s, w) :: rest else (s', w') :: set_weight s w rest
  end.

Definition drop_position (s : security) (ps : Positions) : Positions :=
  filter (fun p => negb (Nat.eqb s (fst p))) ps.

Definition fill (ps : Positions) (o : security * Q) : Positions :=
  let (s, w) := o in
  if Qeq_bool w 0 then drop_position s ps else set_weight s w ps.

Definition fill_all (os : list (security * Q)) (ps : Positions) : Positions :=
  fold_left fill os ps.

(** ** Notions used in the statements *)

(** The context after the platform has replaced the portfolio. *)
Definition with_positions (context : Context) (ps : Positions) : Context :=
  {| output := output context;
     security_list := security_list context;
     longs := longs context;
     positions := ps |}.

(** [s] is held at target weight [w]. *)
Definition held_at (s : security) (ps : Positions) (w : Q) : Prop :=
  exists w', held_weight s ps = Some w' /\ (w' == w)%Q.

(** Two rows agree on every field but [fcf_per_share]. *)
Definition same_but_fcf_per_share (r1 r2 : SecurityRecord) : Prop :=
  sid r1 = sid r2 /\ market_cap r1 = market_cap r2 /\ close r1 = close r2
  /\ dollar_volume r1 = dollar_volume r2 /\ exchange_id r1 = exchange_id r2
  /\ roe r1 = roe r2 /\ fcf_yield r1 = fcf_yield r2 /\ ret_20 r1 = ret_20 r2.

Definition is_some {A : Type} (v : option A) : bool :=
  match v with
  | Some _ => true
  | None => false
  end.

(** A row of the universe whose three base factors are all present. *)
Definition rankable (r : SecurityRecord) : bool :=
  min_liq_univ r
  && (is_some (roe r) && is_some (fcf_yield r) && is_some (ret_20 r)).

Definition Qsum (l : list Q) : Q := fold_right Qplus 0%Q l.

Definition Qnat (n : nat) : Q := inject_Z (Z.of_nat n).

(** How [y] stands to [x], with the value of each test. *)
Inductive Qorder (x y : Q) : Prop :=
| Qbelow : (y < x)%Q -> Qltb y x = true -> Qeq_bool y x = false ->
           Qle_bool y x = true -> Qltb x y = false -> Qorder x y
| Qtied : (y == x)%Q -> Qltb y x = false -> Qeq_bool y x = true ->
          Qle_bool y x = true -> Qltb x y = false -> Qorder x y
| Qabove : (x < y)%Q -> Qltb y x = false -> Qeq_bool y x = false ->
           Qle_bool y x = false -> Qltb x y = true -> Qorder x y.

(** The descending ordinal ranks of a list of ranked cells, as
    [rankdata_ordinal_desc] hands them out. *)
Fixpoint desc_ranks (ps seen l : list Q) : list nat :=
  match l with
  | [] => []
  | x :: rest =>
      (1 + count_gt x ps + count_eq x seen) :: desc_ranks ps (x :: seen) rest
  end.

(** [k] is a rank still free for a cell once the cells of [seen] have
    theirs: it lies in the block of some value [y], past the places the
    cells of [seen] tied with [y] took. *)
Definition slot (ps seen : list Q) (k : nat) : Prop :=
  exists y e, k = 1 + count_gt y ps + e
              /\ count_eq y seen <= e < count_eq y ps.

(** The securities one [rebalance] opens, and those it closes. *)
Definition opened (context : Context) (can_trade : security -> bool)
  : list security :=
  filter (fun s => can_trade s && negb (held s (positions context)))
         (longs context).

Definition closed (context : Context) (can_trade : security -> bool)
  : list security :=
  filter (fun s => negb (mem s (longs context)) && can_trade s)
         (map fst (positions context)).

(** The open rule as the specification words it: an open at
    [long_weight] for every selected security not held at that weight,
    nothing for one held at exactly that weight. *)
Definition opens_as_specified (context : Context)
  (can_trade : security -> bool) : Prop :=
  forall s, In s (longs context) ->
    (~ held_at s (positions context) long_weight ->
     In (s, long_weight) (orders (rebalance context can_trade)))
    /\ (held_at s (positions context) long_weight ->
        forall w, ~ In (s, w) (orders (rebalance context can_trade))).

(** The selection law as the specification words it. *)
Definition selection_as_specified (t : Table) : Prop :=
  forall context,
    let selection := longs (before_trading_start context t) in
    (forall s, In s selection ->
       exists r, In r t /\ sid r = s /\ min_liq_univ r = true)
    /\ length selection = Nat.min 10 (universe_size t).

(** ** Worked data *)

(** A row that passes every screen, with the three base factors given. *)
Definition listed (i : security) (a b c : fval) : SecurityRecord :=
  mkSecurityRecord i (Some 60000000%Q) (Some 5%Q) (Some 300000%Q)
    (Some "NYS"%string) a b (Some 1%Q) c.

(** Four listed rows; the third has no return-on-equity. *)
Definition four_rows : Table :=
  [ listed 1 (Some 1%Q) (Some 2%Q) (Some 3%Q);
    listed 2 (Some 1%Q) (Some 5%Q) (Some 3%Q);
    listed 3 None (Some 5%Q) (Some 3%Q);
    listed 4 (Some 7%Q) (Some 5%Q) (Some 3%Q) ].

(** Seven cells, the last three tied. *)
Definition seven_cells : Column :=
  [Some 1%Q; Some 2%Q; Some 3%Q; Some 4%Q; Some 9%Q; Some 9%Q; Some 9%Q].

Definition all_rows : Filter := [true; true; true; true; true; true; true].

(** Longs 1, 2, 3 against a portfolio holding 3 and 4. *)
Definition monday : Context :=
  mkContext [] [] [1; 2; 3] [(3, 1 # 20); (4, 1 # 10)].

Definition all_but_2 (s : security) : bool := negb (Nat.eqb s 2).

Definition stricter_params : ScreenParams :=
  mkScreenParams 100000000 5 200000 "OTC".

(** ** Further notions *)

(** The cells of a column on the rows a filter admits. *)
Fixpoint select {A : Type} (m : list bool) (c : list A) : list A :=
  match m, c with
  | b :: m', a :: c' => if b then a :: select m' c' else select m' c'
  | _, _ => []
  end.

(** The log messages among the calls. *)
Fixpoint logs (cs : list call) : list message :=
  match cs with
  | [] => []
  | log_info m :: rest => m :: logs rest
  | order_target_percent _ _ :: rest => logs rest
  end.

(** The keys of the positions dictionary. *)
Definition keys (ps : list (nat * Q)) : list nat := map fst ps.

(** Eleven listed rows; row [k] has the value [k] in each base factor. *)
Definition eleven_rows : Table :=
  map (fun k => listed k (Some (Qnat k)) (Some (Qnat k)) (Some (Qnat k)))
      (seq 1 11).

(** ** The ranking as the specification words it *)

(** The values that take part in a ranking: the cells inside the mask
    that hold a value, in row order. *)
Definition participants (data : Column) (mask : Filter) : list Q :=
  flat_map (fun p : option Q * bool =>
              match p with
              | (Some x, true) => [x]
              | _ => []
              end)
           (combine data mask).

(** The arithmetic mean of the ordinal positions that the participants
    tied with [x] occupy together in ascending order. *)
Definition tie_mean (ps : list Q) (x : Q) : Q :=
  Qnat (sum_nat (ordinal_positions ps x))
  / Qnat (length (ordinal_positions ps x)).



(** The ranks handed to the participants tied with [x]. *)
Definition tied_ranks (data : Column) (mask : Filter) (ranks : Column)
  (x : Q) : list Q :=
  flat_map (fun p : option Q * bool * option Q =>
              match p with
              | (Some y, true, Some r) => if Qeq_bool y x then [r] else []
              | _ => []
              end)
           (combine (combine data mask) ranks).

(** A mask that leaves the first two rows out. *)
Definition tail_rows : Filter := [false; false; true; true; true; true; true].

(** * Properties *)

(** ** Cells *)

Lemma Qltb_lt (a b : Q) : Qltb a b = true <-> (a < b)%Q.
Proof.
  unfold Qltb. rewrite negb_true_iff, <- not_true_iff_false, Qle_bool_iff.
  split; [apply Qnot_le_lt | apply Qlt_not_le].
Qed.

Lemma fgt_spec (v : fval) (c : Q) :
  fgt v c = true <-> exists x, v = Some x /\ (c < x)%Q.
Proof.
  destruct v as [x|]; simpl.
  - rewrite Qltb_lt. split.
    + intros H. now exists x.
    + intros (y & Hy & H). now inversion Hy; subst.
  - split; [discriminate | intros (y & Hy & _); discriminate].
Qed.

Lemma prefix_append (p s : string) :
  String.prefix p s = true <-> exists rest, s = (p ++ rest)%string.
Proof.
  revert s. induction p as [|c p IH]; intros s; simpl.
  - split; [intros _; now exists s | now destruct s].
  - destruct s as [|d s].
    + split; [discriminate | intros (rest & H); discriminate].
    + simpl. destruct (Ascii.ascii_dec c d) as [->|Hcd].
      * rewrite IH. split; intros (rest & H); exists rest.
        -- now rewrite H.
        -- now inversion H.
      * split; [discriminate | intros (rest & H); inversion H; congruence].
Qed.

Lemma startswith_spec (v : option string) (p : string) :
  startswith v p = true <->
  exists s rest, v = Some s /\ s = (p ++ rest)%string.
Proof.
  destruct v as [s|]; simpl.
  - rewrite prefix_append. split.
    + intros (rest & H). now exists s, rest.
    + intros (s' & rest & Hs & H). inversion Hs; subst. now exists rest.
  - split; [discriminate | intros (s & rest & H & _); discriminate].
Qed.

(** ** The universe screen *)

Lemma min_liq_univ_literals (r : SecurityRecord) :
  min_liq_univ r = liq_univ_with source_params r.
Proof. reflexivity. Qed.

(** C3: a row is in the universe exactly when the four screens pass
    together: market cap above 50,000,000, close above 1, 20-day average
    dollar volume above 200,000, and an exchange identifier that does not
    begin with "OTC" (a prefix test: nothing is said about "OTC" further
    inside the identifier).  A missing numeric field fails its screen; a
    missing exchange identifier has no "OTC" prefix. *)
Theorem min_liq_univ_iff (r : SecurityRecord) :
  min_liq_univ r = true <->
  (exists m, market_cap r = Some m /\ (50000000 < m)%Q)
  /\ (exists p, close r = Some p /\ (1 < p)%Q)
  /\ (exists v, dollar_volume r = Some v /\ (200000 < v)%Q)
  /\ (forall e, exchange_id r = Some e ->
        ~ exists rest, e = ("OTC" ++ rest)%string).
Proof.
  unfold min_liq_univ. cbv zeta.
  rewrite !andb_true_iff, !fgt_spec, negb_true_iff.
  rewrite <- not_true_iff_false, startswith_spec.
  split.
  - intros [[[Hc Hp] Hv] Ho]. repeat split; trivial.
    intros e He (rest & Hrest). apply Ho. now exists e, rest.
  - intros (Hc & Hp & Hv & Ho). repeat split; trivial.
    intros (s & rest & Hs & Hrest). apply (Ho s Hs). now exists rest.
Qed.

(** "OTC" inside the identifier but not at its start does not exclude. *)
Example otc_inside_passes :
  min_liq_univ
    (mkSecurityRecord 1 (Some 60000000%Q) (Some 5%Q) (Some 300000%Q)
       (Some "NOTC"%string) None None None None) = true
  /\ min_liq_univ
       (mkSecurityRecord 1 (Some 60000000%Q) (Some 5%Q) (Some 300000%Q)
          (Some "OTCBB"%string) None None None None) = false.
Proof. split; reflexivity. Qed.

Lemma fgt_antitone (v : fval) (c c' : Q) :
  (c <= c')%Q -> fgt v c' = true -> fgt v c = true.
Proof.
  intros Hc. rewrite !fgt_spec. intros (x & Hx & H). exists x. split; trivial.
  now apply Qle_lt_trans with c'.
Qed.

Lemma count_true_le (A : Type) (f g : A -> bool) (l : list A) :
  (forall a, f a = true -> g a = true) ->
  count_true (map f l) <= count_true (map g l).
Proof.
  intros Hfg. unfold count_true. induction l as [|a l IH]; simpl; trivial.
  destruct (f a) eqn:Hf.
  - rewrite (Hfg a Hf). simpl. lia.
  - destruct (g a); simpl; lia.
Qed.

(** C9: raising any of the three minimums (market cap, price, average
    dollar volume), the excluded prefix unchanged, admits no row that was
    not admitted before, so the universe does not grow. *)
Theorem liq_univ_antitone (p p' : ScreenParams) (t : Table) :
  (minCap p <= minCap p')%Q ->
  (minPrice p <= minPrice p')%Q ->
  (minVolume p <= minVolume p')%Q ->
  otcPrefix p = otcPrefix p' ->
  (forall r, liq_univ_with p' r = true -> liq_univ_with p r = true)
  /\ count_true (map (liq_univ_with p') t)
     <= count_true (map (liq_univ_with p) t).
Proof.
  intros Hc Hp Hv Ho.
  assert (H : forall r, liq_univ_with p' r = true -> liq_univ_with p r = true).
  { intros r. unfold liq_univ_with. rewrite !andb_true_iff, Ho.
    intros [[[H1 H2] H3] H4].
    repeat split; eauto using fgt_antitone. }
  split; [exact H | now apply count_true_le].
Qed.

(** ** Rebalance *)

Lemma mem_In (s : security) (l : list security) :
  mem s l = true <-> In s l.
Proof.
  unfold mem. rewrite existsb_exists. split.
  - intros (x & Hx & E). apply Nat.eqb_eq in E. now subst.
  - intros H. exists s. split; trivial. apply Nat.eqb_refl.
Qed.

Lemma mem_filter (f : security -> bool) (s : security) (l : list security) :
  mem s (filter f l) = mem s l && f s.
Proof.
  apply eq_true_iff_eq.
  rewrite andb_true_iff, !mem_In, filter_In. reflexivity.
Qed.

Lemma orders_app (a b : list call) : orders (a ++ b) = orders a ++ orders b.
Proof.
  induction a as [|c a IH]; simpl; trivial.
  destruct c; simpl; now rewrite IH.
Qed.

Lemma orders_map_order (f : security -> Q) (l : list security) :
  orders (map (fun s => order_target_percent s (f s)) l)
  = map (fun s => (s, f s)) l.
Proof. induction l as [|s l IH]; simpl; now rewrite ?IH. Qed.

Lemma orders_opening (ct : security -> bool) (ps : Positions)
  (l : list security) :
  orders (flat_map (fun security =>
                      if ct security then
                        if negb (held security ps)
                        then [order_target_percent security long_weight]
                        else [log_info (DidntOpen security)]
                      else []) l)
  = map (fun s => (s, long_weight))
        (filter (fun s => ct s && negb (held s ps)) l).
Proof.
  induction l as [|s l IH]; simpl; trivial.
  rewrite orders_app, IH.
  destruct (ct s); simpl; trivial.
  destruct (held s ps); reflexivity.
Qed.

(** The orders of one [rebalance]: the opens, then the closes. *)
Lemma orders_rebalance (context : Context) (can_trade : security -> bool) :
  orders (rebalance context can_trade)
  = map (fun s => (s, long_weight)) (opened context can_trade)
    ++ map (fun s => (s, 0%Q)) (closed context can_trade).
Proof.
  unfold rebalance. cbv zeta. simpl orders at 1.
  rewrite orders_app, orders_opening, orders_app.
  rewrite (orders_map_order (fun _ => 0%Q)). simpl.
  now rewrite app_nil_r.
Qed.

Lemma in_orders_rebalance (context : Context) (can_trade : security -> bool)
  (s : security) (w : Q) :
  In (s, w) (orders (rebalance context can_trade)) <->
  (w = long_weight /\ In s (longs context) /\ can_trade s = true
   /\ held s (positions context) = false)
  \/ (w = 0%Q /\ held s (positions context) = true
      /\ mem s (longs context) = false /\ can_trade s = true).
Proof.
  rewrite orders_rebalance, in_app_iff, !in_map_iff.
  unfold opened, closed, held.
  split.
  - intros [(x & E & Hx) | (x & E & Hx)]; inversion E; subst;
      apply filter_In in Hx; destruct Hx as [Hx Hc];
      rewrite andb_true_iff, negb_true_iff in Hc.
    + left. tauto.
    + right. rewrite mem_In. tauto.
  - intros [(-> & Hl & Hc & Hh) | (-> & Hh & Hl & Hc)].
    + left. exists s. split; trivial. apply filter_In. split; trivial.
      now rewrite Hc, Hh.
    + right. exists s. split; trivial. apply filter_In. split.
      * now apply mem_In.
      * now rewrite Hl, Hc.
Qed.

(** C6: for a held security that is not among the longs, [rebalance]
    orders a close (target 0) exactly when the security can be traded;
    when it cannot, no order at all is placed for it.  [rebalance] is a
    total function, so the cycle completes either way. *)
Theorem rebalance_closes_iff_tradable (context : Context)
  (can_trade : security -> bool) (s : security) :
  held s (positions context) = true ->
  ~ In s (longs context) ->
  (In (s, 0%Q) (orders (rebalance context can_trade)) <-> can_trade s = true)
  /\ (forall w, In (s, w) (orders (rebalance context can_trade)) -> w = 0%Q)
  /\ (can_trade s = false ->
      forall w, ~ In (s, w) (orders (rebalance context can_trade))).
Proof.
  intros Hh Hl.
  assert (Hm : mem s (longs context) = false).
  { apply not_true_iff_false. now rewrite mem_In. }
  repeat split.
  - rewrite in_orders_rebalance. intros [(E & _) | H]; [discriminate | tauto].
  - intros Hc. apply in_orders_rebalance. right. tauto.
  - intros w. rewrite in_orders_rebalance.
    intros [(_ & _ & _ & H) | (E & _)]; [congruence | exact E].
  - intros Hc w. rewrite in_orders_rebalance.
    intros [(_ & _ & H & _) | (_ & _ & _ & H)]; congruence.
Qed.

(** C4 (amended): for a selected security, [rebalance] orders an open at
    [long_weight] = 1/10 when the security can be traded and is not held;
    it places no order for a selected security that is held, whatever the
    weight it is held at, nor for one that cannot be traded. *)
Theorem rebalance_opens (context : Context) (can_trade : security -> bool)
  (s : security) :
  In s (longs context) ->
  (long_weight == 1 / 10)%Q
  /\ (can_trade s = true -> held s (positions context) = false ->
      In (s, long_weight) (orders (rebalance context can_trade)))
  /\ (held s (positions context) = true \/ can_trade s = false ->
      forall w, ~ In (s, w) (orders (rebalance context can_trade))).
Proof.
  intros Hl. split; [reflexivity|]. split.
  - intros Hc Hh. apply in_orders_rebalance. left. tauto.
  - intros H w. rewrite in_orders_rebalance.
    apply mem_In in Hl.
    intros [(_ & _ & Hc & Hh) | (_ & _ & Hm & _)]; [|congruence].
    destruct H; congruence.
Qed.

(** C4 as worded fails: security 1 is selected, can be traded and is held
    at weight 1/20, which is not the target 1/10; [rebalance] places no
    order for it, where the wording asks for an open. *)
Lemma opens_as_specified_fails :
  ~ opens_as_specified
      (mkContext [] [] [1] [(1, 1 # 20)]) (fun _ => true).
Proof.
  intros H. destruct (H 1) as [Hopen _]; [now left|].
  assert (Hn : ~ held_at 1 [(1, 1 # 20)] long_weight).
  { intros (w' & Hw & E). simpl in Hw. inversion Hw; subst. discriminate E. }
  specialize (Hopen Hn). simpl in Hopen. exact Hopen.
Qed.

Lemma held_set_weight (s s' : security) (w : Q) (ps : Positions) :
  held s (set_weight s' w ps) = Nat.eqb s s' || held s ps.
Proof.
  unfold held, mem. induction ps as [|[k v] ps IH]; simpl.
  - reflexivity.
  - destruct (Nat.eqb_spec s' k) as [->|Hk]; simpl.
    + destruct (Nat.eqb s k); reflexivity.
    + rewrite IH. destruct (Nat.eqb s k), (Nat.eqb s s'); reflexivity.
Qed.

Lemma held_drop_position (s s' : security) (ps : Positions) :
  held s (drop_position s' ps) = negb (Nat.eqb s s') && held s ps.
Proof.
  unfold held, mem, drop_position. induction ps as [|[k v] ps IH]; simpl.
  - now rewrite andb_false_r.
  - destruct (Nat.eqb_spec s' k) as [->|Hk]; simpl.
    + rewrite IH. destruct (Nat.eqb s k); reflexivity.
    + rewrite IH. destruct (Nat.eqb_spec s k) as [->|Hsk]; simpl.
      * apply Nat.eqb_neq in Hk. rewrite Nat.eqb_sym in Hk. now rewrite Hk.
      * reflexivity.
Qed.

Lemma mem_cons (s a : security) (l : list security) :
  mem s (a :: l) = Nat.eqb s a || mem s l.
Proof. reflexivity. Qed.

Lemma held_fill_opens (s : security) (w : Q) (l : list security) :
  Qeq_bool w 0 = false ->
  forall ps,
    held s (fill_all (map (fun x => (x, w)) l) ps) = held s ps || mem s l.
Proof.
  intros Hw. unfold fill_all.
  induction l as [|a l IH]; intros ps; simpl fold_left.
  - now rewrite orb_false_r.
  - rewrite IH. unfold fill. rewrite Hw, held_set_weight, mem_cons.
    destruct (Nat.eqb s a), (held s ps); reflexivity.
Qed.

Lemma held_fill_closes (s : security) (l : list security) :
  forall ps,
    held s (fill_all (map (fun x => (x, 0%Q)) l) ps)
    = held s ps && negb (mem s l).
Proof.
  unfold fill_all.
  induction l as [|a l IH]; intros ps; simpl fold_left.
  - now rewrite andb_true_r.
  - rewrite IH. unfold fill. simpl Qeq_bool.
    rewrite held_drop_position, mem_cons.
    destruct (Nat.eqb s a), (held s ps); reflexivity.
Qed.

(** After every order of one [rebalance] is filled, with nothing barred
    from trading, the portfolio holds exactly the longs. *)
Lemma held_after_rebalance (context : Context)
  (can_trade : security -> bool) (s : security) :
  (forall x, can_trade x = true) ->
  held s (fill_all (orders (rebalance context can_trade)) (positions context))
  = mem s (longs context).
Proof.
  intros Hall. rewrite orders_rebalance.
  unfold fill_all. rewrite fold_left_app.
  change (fold_left fill ?l ?p) with (fill_all l p).
  rewrite held_fill_closes, held_fill_opens by reflexivity.
  unfold opened, closed. rewrite !mem_filter, !Hall.
  change (mem s (map fst (positions context))) with (held s (positions context)).
  destruct (held s (positions context)), (mem s (longs context)); reflexivity.
Qed.

Lemma filter_nil_iff (A : Type) (f : A -> bool) (l : list A) :
  (forall a, In a l -> f a = false) -> filter f l = [].
Proof.
  induction l as [|a l IH]; intros H; simpl; trivial.
  rewrite (H a (or_introl eq_refl)). apply IH. intros b Hb. apply H. now right.
Qed.

(** C8: when no security is barred from trading, and the portfolio is
    the one left by filling every order of a first [rebalance], a second
    [rebalance] on the same longs places no order at all, whatever can be
    traded then.  The weight per name is the source's 1/10. *)
Theorem rebalance_idempotent (context : Context)
  (can_trade can_trade' : security -> bool) :
  (forall s, can_trade s = true) ->
  orders
    (rebalance
       (with_positions context
          (fill_all (orders (rebalance context can_trade))
                    (positions context)))
       can_trade')
  = [].
Proof.
  intros Hall. rewrite orders_rebalance.
  set (ps' := fill_all _ _).
  assert (Hheld : forall s, held s ps' = mem s (longs context)).
  { intros s. unfold ps'. now apply held_after_rebalance. }
  unfold opened, closed, with_positions. cbn [positions longs].
  rewrite !filter_nil_iff; trivial.
  - intros s Hs. apply mem_In in Hs. fold (held s ps') in Hs.
    rewrite <- Hheld, Hs. reflexivity.
  - intros s Hs. apply mem_In in Hs. rewrite Hheld, Hs.
    now rewrite andb_false_r.
Qed.

(** ** Columns *)

Lemma map2_map (A B C D : Type) (h : B -> C -> D) (f : A -> B) (g : A -> C)
  (l : list A) :
  map2 h (map f l) (map g l) = map (fun a => h (f a) (g a)) l.
Proof. induction l as [|a l IH]; simpl; now rewrite ?IH. Qed.

Lemma length_map2 (A B C : Type) (f : A -> B -> C) (l1 : list A)
  (l2 : list B) :
  length (map2 f l1 l2) = Nat.min (length l1) (length l2).
Proof.
  revert l2. induction l1 as [|a l1 IH]; intros [|b l2]; simpl; trivial.
  now rewrite IH.
Qed.

Lemma nth_error_map2 (A B C : Type) (f : A -> B -> C) (l1 : list A)
  (l2 : list B) (i : nat) (a : A) (b : B) :
  nth_error l1 i = Some a -> nth_error l2 i = Some b ->
  nth_error (map2 f l1 l2) i = Some (f a b).
Proof.
  revert l1 l2. induction i as [|i IH]; intros [|x l1] [|y l2]; simpl;
    try discriminate.
  - congruence.
  - apply IH.
Qed.

Lemma nth_error_nth_map (A B : Type) (f : A -> B) (d : B) (l : list A)
  (i : nat) (a : A) :
  nth_error l i = Some a -> nth i (map f l) d = f a.
Proof.
  intros H. apply nth_error_nth. now rewrite nth_error_map, H.
Qed.

Lemma mask_data_map (f : SecurityRecord -> fval) (t : Table) :
  mask_data (map f t) (universe t)
  = map (fun r => if min_liq_univ r then f r else None) t.
Proof. unfold mask_data, universe. apply map2_map. Qed.

Lemma length_rank_average (data : Column) (mask : Filter) :
  length (rank_average data mask) = Nat.min (length data) (length mask).
Proof.
  unfold rank_average, rankdata_average, mask_data.
  now rewrite length_map, length_map2.
Qed.

Lemma nth_error_rank_average (data : Column) (mask : Filter) (i : nat)
  (v : fval) :
  nth_error (mask_data data mask) i = Some v ->
  nth_error (rank_average data mask) i
  = Some (match v with
          | Some x => Some (average_rank (present (mask_data data mask)) x)
          | None => None
          end).
Proof.
  intros H. unfold rank_average, rankdata_average. cbv zeta.
  now rewrite nth_error_map, H.
Qed.

Lemma nth_error_ordinal_desc (ps : list Q) (data : Column) (i : nat) :
  forall seen,
    match nth_error data i with
    | Some (Some _) =>
        exists k, nth_error (rankdata_ordinal_desc ps seen data) i
                  = Some (Some k)
    | Some None =>
        nth_error (rankdata_ordinal_desc ps seen data) i = Some None
    | None => nth_error (rankdata_ordinal_desc ps seen data) i = None
    end.
Proof.
  revert i. induction data as [|[x|] data IH]; intros [|i] seen; simpl;
    trivial; try apply IH.
  now eexists.
Qed.

Lemma nth_error_top_None (N : nat) (data : Column) (mask : Filter)
  (i : nat) :
  nth_error (mask_data data mask) i = Some None ->
  nth_error (top N data mask) i = Some false.
Proof.
  intros H. unfold top, rank_ordinal_desc. cbv zeta.
  rewrite nth_error_map.
  pose proof (nth_error_ordinal_desc
                (present (mask_data data mask)) (mask_data data mask) i [])
    as Hi.
  rewrite H in Hi. now rewrite Hi.
Qed.

Lemma nth_error_top_true (N : nat) (data : Column) (mask : Filter)
  (i : nat) :
  nth_error (top N data mask) i = Some true ->
  exists x, nth_error (mask_data data mask) i = Some (Some x).
Proof.
  unfold top, rank_ordinal_desc. cbv zeta. rewrite nth_error_map.
  pose proof (nth_error_ordinal_desc
                (present (mask_data data mask)) (mask_data data mask) i [])
    as Hi.
  destruct (nth_error (mask_data data mask) i) as [[x|]|].
  - intros _. now exists x.
  - rewrite Hi. discriminate.
  - rewrite Hi. discriminate.
Qed.

Lemma nth_error_mask_data (data : Column) (mask : Filter) (i : nat)
  (v : fval) (m : bool) :
  nth_error data i = Some v -> nth_error mask i = Some m ->
  nth_error (mask_data data mask) i = Some (if m then v else None).
Proof.
  intros Hv Hm. unfold mask_data.
  now rewrite (nth_error_map2 _ _ _ _ _ _ i v m Hv Hm).
Qed.

Lemma nth_error_mask_data_Some (data : Column) (mask : Filter) (i : nat)
  (x : Q) :
  nth_error (mask_data data mask) i = Some (Some x) ->
  nth_error data i = Some (Some x) /\ nth_error mask i = Some true.
Proof.
  unfold mask_data. revert data mask.
  induction i as [|i IH]; intros [|v data] [|m mask]; simpl; try discriminate.
  - destruct m; [|discriminate]. intros H. now inversion H.
  - apply IH.
Qed.

(** The cells of the three factor ranks, of their sum and of the
    composite rank, for the row at index [i]. *)
Lemma nth_error_universe (t : Table) (i : nat) (r : SecurityRecord) :
  nth_error t i = Some r -> nth_error (universe t) i = Some (min_liq_univ r).
Proof. intros H. unfold universe. now rewrite nth_error_map, H. Qed.

Lemma nth_error_factor_rank (f : SecurityRecord -> fval) (t : Table)
  (i : nat) (r : SecurityRecord) :
  nth_error t i = Some r ->
  nth_error (rank_average (map f t) (universe t)) i
  = Some (if min_liq_univ r
          then match f r with
               | Some x =>
                   Some (average_rank
                           (present (mask_data (map f t) (universe t))) x)
               | None => None
               end
          else None).
Proof.
  intros H.
  rewrite (nth_error_rank_average _ _ i (if min_liq_univ r then f r else None)).
  - now destruct (min_liq_univ r).
  - apply nth_error_mask_data.
    + now rewrite nth_error_map, H.
    + now apply nth_error_universe.
Qed.

Lemma nth_error_composite_raw (t : Table) (i : nat) (r : SecurityRecord) :
  nth_error t i = Some r ->
  exists q v m,
    nth_error (quality t) i = Some q /\ nth_error (value t) i = Some v
    /\ nth_error (momentum t) i = Some m
    /\ nth_error (composite_raw t) i = Some (fadd (fadd q v) m)
    /\ (roe r = None -> q = None) /\ (fcf_yield r = None -> v = None)
    /\ (ret_20 r = None -> m = None).
Proof.
  intros H.
  pose proof (nth_error_factor_rank roe t i r H) as Hq.
  pose proof (nth_error_factor_rank fcf_yield t i r H) as Hv.
  pose proof (nth_error_factor_rank ret_20 t i r H) as Hm.
  do 3 eexists.
  split; [exact Hq|]. split; [exact Hv|]. split; [exact Hm|]. split.
  - unfold composite_raw.
    apply nth_error_map2; [apply nth_error_map2|]; eassumption.
  - repeat split; intros ->; now destruct (min_liq_univ r).
Qed.

(** ** The output frame and the longs *)

Lemma nth_true_nth_error (l : list bool) (i : nat) :
  nth i l false = true <-> nth_error l i = Some true.
Proof.
  revert i. induction l as [|b l IH]; intros [|i]; simpl;
    try (split; discriminate); trivial.
  split; congruence.
Qed.

Lemma longs_before_trading_start (context : Context) (t : Table) :
  longs (before_trading_start context t)
  = map (fun i => nth i (map sid t) 0)
        (filter (fun i => nth i (long_10 t) false)
                (filter (fun i => nth i (universe t) false)
                        (seq 0 (length t)))).
Proof.
  unfold before_trading_start, make_pipeline. cbn [longs].
  now rewrite filter_map_swap, map_map.
Qed.

Lemma security_list_before_trading_start (context : Context) (t : Table) :
  security_list (before_trading_start context t)
  = map (fun i => nth i (map sid t) 0)
        (filter (fun i => nth i (universe t) false) (seq 0 (length t))).
Proof.
  unfold before_trading_start, make_pipeline. cbn [security_list].
  now rewrite map_map.
Qed.

Lemma row_index (t : Table) (i : nat) :
  i < length t <-> exists r, nth_error t i = Some r.
Proof.
  rewrite <- nth_error_Some. destruct (nth_error t i) as [r|].
  - split; [intros _; now exists r | discriminate].
  - split; [congruence | intros (r & H); discriminate].
Qed.

Lemma in_security_list (context : Context) (t : Table) (s : security) :
  In s (security_list (before_trading_start context t)) <->
  exists i r, nth_error t i = Some r /\ sid r = s /\ min_liq_univ r = true.
Proof.
  rewrite security_list_before_trading_start, in_map_iff. split.
  - intros (i & Hs & Hi). apply filter_In in Hi. destruct Hi as [Hi Hu].
    apply in_seq in Hi. destruct Hi as [_ Hi]. simpl in Hi.
    apply row_index in Hi. destruct Hi as (r & Hr).
    exists i, r. split; trivial.
    rewrite (nth_error_nth_map _ _ sid 0 t i r Hr) in Hs.
    unfold universe in Hu.
    rewrite (nth_error_nth_map _ _ min_liq_univ false t i r Hr) in Hu.
    now split.
  - intros (i & r & Hr & Hs & Hu). exists i. split.
    + now rewrite (nth_error_nth_map _ _ sid 0 t i r Hr).
    + apply filter_In. split.
      * apply in_seq. split; [lia|]. simpl. apply row_index. now exists r.
      * unfold universe.
        now rewrite (nth_error_nth_map _ _ min_liq_univ false t i r Hr).
Qed.

Lemma in_longs (context : Context) (t : Table) (s : security) :
  In s (longs (before_trading_start context t)) <->
  exists i r, nth_error t i = Some r /\ sid r = s /\ min_liq_univ r = true
              /\ nth_error (long_10 t) i = Some true.
Proof.
  rewrite longs_before_trading_start, in_map_iff. split.
  - intros (i & Hs & Hi). apply filter_In in Hi. destruct Hi as [Hi Hl].
    apply filter_In in Hi. destruct Hi as [Hi Hu].
    apply in_seq in Hi. destruct Hi as [_ Hi]. simpl in Hi.
    apply row_index in Hi. destruct Hi as (r & Hr).
    exists i, r. split; trivial.
    rewrite (nth_error_nth_map _ _ sid 0 t i r Hr) in Hs.
    unfold universe in Hu.
    rewrite (nth_error_nth_map _ _ min_liq_univ false t i r Hr) in Hu.
    apply nth_true_nth_error in Hl. now repeat split.
  - intros (i & r & Hr & Hs & Hu & Hl). exists i. split.
    + now rewrite (nth_error_nth_map _ _ sid 0 t i r Hr).
    + apply filter_In. split; [apply filter_In; split|].
      * apply in_seq. split; [lia|]. simpl. apply row_index. now exists r.
      * unfold universe.
        now rewrite (nth_error_nth_map _ _ min_liq_univ false t i r Hr).
      * now apply nth_true_nth_error.
Qed.

Lemma nth_error_qvm (t : Table) (i : nat) (r : SecurityRecord)
  (c : option Q) :
  nth_error t i = Some r ->
  nth_error (composite_raw t) i = Some c ->
  nth_error (qvm t) i
  = Some (if min_liq_univ r
          then match c with
               | Some x =>
                   Some (average_rank
                           (present (mask_data (composite_raw t)
                                               (universe t))) x)
               | None => None
               end
          else None).
Proof.
  intros Hr Hc. unfold qvm.
  rewrite (nth_error_rank_average _ _ i (if min_liq_univ r then c else None)).
  - now destruct (min_liq_univ r).
  - apply nth_error_mask_data; trivial. now apply nth_error_universe.
Qed.

(** C10: a universe row with any of return-on-equity, free-cash-flow
    yield or 20-day return missing has no composite rank, is not marked
    by the top-10 filter, and (security identifiers being unique in the
    table) is in the output frame but never among the longs. *)
Theorem null_factor_never_selected (t : Table) (context : Context)
  (i : nat) (r : SecurityRecord) :
  NoDup (map sid t) ->
  nth_error t i = Some r ->
  min_liq_univ r = true ->
  roe r = None \/ fcf_yield r = None \/ ret_20 r = None ->
  nth_error (qvm t) i = Some None
  /\ nth_error (long_10 t) i = Some false
  /\ In (sid r) (security_list (before_trading_start context t))
  /\ ~ In (sid r) (longs (before_trading_start context t)).
Proof.
  intros Hnd Hr Hu Hnull.
  destruct (nth_error_composite_raw t i r Hr)
    as (q & v & m & _ & _ & _ & Hc & Hq & Hv & Hm).
  assert (Hsum : fadd (fadd q v) m = None).
  { destruct Hnull as [H | [H | H]].
    - now rewrite (Hq H).
    - rewrite (Hv H). now destruct q.
    - rewrite (Hm H). now destruct (fadd q v). }
  rewrite Hsum in Hc.
  assert (Hqvm : nth_error (qvm t) i = Some None).
  { rewrite (nth_error_qvm t i r None Hr Hc). now destruct (min_liq_univ r). }
  assert (Hl : nth_error (long_10 t) i = Some false).
  { unfold long_10. apply nth_error_top_None.
    rewrite (nth_error_mask_data _ _ i None (min_liq_univ r) Hqvm
               (nth_error_universe t i r Hr)).
    now destruct (min_liq_univ r). }
  repeat split; trivial.
  - apply in_security_list. now exists i, r.
  - rewrite in_longs. intros (j & r' & Hr' & Hs & _ & Hl').
    assert (E : j = i).
    { apply (proj1 (NoDup_nth_error (map sid t)) Hnd).
      - rewrite length_map. apply row_index. now exists r'.
      - rewrite !nth_error_map, Hr, Hr'. simpl. congruence. }
    subst j. congruence.
Qed.

(** ** The manual value column *)

Lemma same_but_fcf_map (A : Type) (f : SecurityRecord -> A) (t1 t2 : Table) :
  (forall r1 r2, same_but_fcf_per_share r1 r2 -> f r1 = f r2) ->
  Forall2 same_but_fcf_per_share t1 t2 -> map f t1 = map f t2.
Proof.
  intros Hf H. induction H as [|r1 r2 t1 t2 Hr _ IH]; simpl; trivial.
  now rewrite (Hf r1 r2 Hr), IH.
Qed.

Lemma same_but_fcf_universe (r1 r2 : SecurityRecord) :
  same_but_fcf_per_share r1 r2 -> min_liq_univ r1 = min_liq_univ r2.
Proof.
  intros (_ & Hc & Hp & Hv & He & _). unfold min_liq_univ.
  now rewrite Hc, Hp, Hv, He.
Qed.

Lemma nth_fcf_yield_manual (t : Table) (i : nat) (r : SecurityRecord) :
  nth_error t i = Some r ->
  nth i (fcf_yield_manual t) S754_nan = fdiv (fcf_per_share r) (close r).
Proof.
  intros Hr. unfold fcf_yield_manual. rewrite map2_map.
  now rewrite (nth_error_nth_map _ _ _ S754_nan t i r Hr).
Qed.

(** C7: two tables that agree on every field but free-cash-flow per
    share give the same three factor ranks, the same raw composite, the
    same composite rank, the same top-10 filter and the same longs; the
    manual value free-cash-flow-per-share / close is nevertheless a
    column of the output frame for every universe row. *)
Theorem manual_value_not_ranked (t1 t2 : Table) (context : Context) :
  Forall2 same_but_fcf_per_share t1 t2 ->
  quality t1 = quality t2
  /\ value t1 = value t2
  /\ momentum t1 = momentum t2
  /\ composite_raw t1 = composite_raw t2
  /\ qvm t1 = qvm t2
  /\ long_10 t1 = long_10 t2
  /\ longs (before_trading_start context t1)
     = longs (before_trading_start context t2)
  /\ (forall i r, nth_error t1 i = Some r -> min_liq_univ r = true ->
        In (output_row t1 i) (make_pipeline t1)
        /\ out_fcf_yield_manual (output_row t1 i)
           = fdiv (fcf_per_share r) (close r)).
Proof.
  intros H.
  assert (Hu : universe t1 = universe t2).
  { unfold universe. apply same_but_fcf_map; trivial.
    apply same_but_fcf_universe. }
  assert (Hroe : map roe t1 = map roe t2).
  { apply same_but_fcf_map; trivial. intros r1 r2 Hr. apply Hr. }
  assert (Hfcf : map fcf_yield t1 = map fcf_yield t2).
  { apply same_but_fcf_map; trivial. intros r1 r2 Hr. apply Hr. }
  assert (Hret : map ret_20 t1 = map ret_20 t2).
  { apply same_but_fcf_map; trivial. intros r1 r2 Hr. apply Hr. }
  assert (Hsid : map sid t1 = map sid t2).
  { apply same_but_fcf_map; trivial. intros r1 r2 Hr. apply Hr. }
  assert (Hlen : length t1 = length t2) by now apply Forall2_length in H.
  assert (Hq : quality t1 = quality t2).
  { unfold quality. now rewrite Hroe, Hu. }
  assert (Hv : value t1 = value t2).
  { unfold value. now rewrite Hfcf, Hu. }
  assert (Hm : momentum t1 = momentum t2).
  { unfold momentum. now rewrite Hret, Hu. }
  assert (Hc : composite_raw t1 = composite_raw t2).
  { unfold composite_raw. now rewrite Hq, Hv, Hm. }
  assert (Hqvm : qvm t1 = qvm t2).
  { unfold qvm. now rewrite Hc, Hu. }
  assert (Hl : long_10 t1 = long_10 t2).
  { unfold long_10. now rewrite Hqvm, Hu. }
  repeat (split; trivial).
  - rewrite !longs_before_trading_start. now rewrite Hsid, Hl, Hu, Hlen.
  - unfold make_pipeline. apply in_map, filter_In. split.
    + apply in_seq. split; [lia|]. simpl. apply row_index. now exists r.
    + unfold universe.
      now rewrite (nth_error_nth_map _ _ min_liq_univ false t1 i r).
  - cbn [output_row out_fcf_yield_manual]. now apply nth_fcf_yield_manual.
Qed.

(** The manual column does follow free-cash-flow per share: 10 / 5 is
    the double 2, 1 / 5 the double nearest to 0.2, while the composite
    rank stays the same. *)
Example manual_value_observable :
  let row f :=
    mkSecurityRecord 1 (Some 60000000%Q) (Some 5%Q) (Some 300000%Q)
      (Some "NYS"%string) (Some 1%Q) (Some 1%Q) f (Some 1%Q) in
  map out_fcf_yield_manual (make_pipeline [row (Some 10%Q)])
  = [S754_finite false 4503599627370496 (-51)]
  /\ map out_fcf_yield_manual (make_pipeline [row (Some 1%Q)])
     = [S754_finite false 7205759403792794 (-55)]
  /\ map out_qvm (make_pipeline [row (Some 10%Q)])
     = map out_qvm (make_pipeline [row (Some 1%Q)]).
Proof. repeat split; vm_compute; reflexivity. Qed.

(** The division at its edges: 1 / 3 rounds to the nearest double, a
    zero divisor gives an infinity of the dividend's sign, 0 / 0 and a
    missing operand give NaN. *)
Example fdiv_edges :
  fdiv (Some 1%Q) (Some 3%Q) = S754_finite false 6004799503160661 (-54)
  /\ fdiv (Some 1%Q) (Some 0%Q) = S754_infinity false
  /\ fdiv (Some (-1)%Q) (Some 0%Q) = S754_infinity true
  /\ fdiv (Some 0%Q) (Some 0%Q) = S754_nan
  /\ fdiv None (Some 3%Q) = S754_nan
  /\ fdiv (Some 1%Q) None = S754_nan.
Proof. repeat split; vm_compute; reflexivity. Qed.

(** ** Counting below, at and above a cell *)

Lemma Qle_bool_false (a b : Q) : Qle_bool a b = false <-> (b < a)%Q.
Proof.
  rewrite <- not_true_iff_false, Qle_bool_iff.
  split; [apply Qnot_le_lt | apply Qlt_not_le].
Qed.

Lemma Qltb_false (a b : Q) : Qltb a b = false <-> (b <= a)%Q.
Proof. unfold Qltb. now rewrite negb_false_iff, Qle_bool_iff. Qed.

Lemma Qeq_bool_false (a b : Q) : Qeq_bool a b = false <-> ~ (a == b)%Q.
Proof. now rewrite <- not_true_iff_false, Qeq_bool_iff. Qed.

Lemma Qorder_cases (x y : Q) : Qorder x y.
Proof.
  destruct (Q_dec y x) as [[H | H] | H].
  - apply Qbelow; trivial.
    + now apply Qltb_lt.
    + apply Qeq_bool_false. intros E. rewrite E in H.
      exact (Qlt_irrefl _ H).
    + apply Qle_bool_iff. now apply Qlt_le_weak.
    + apply Qltb_false. now apply Qlt_le_weak.
  - apply Qabove; trivial.
    + apply Qltb_false. now apply Qlt_le_weak.
    + apply Qeq_bool_false. intros E. rewrite E in H.
      exact (Qlt_irrefl _ H).
    + now apply Qle_bool_false.
    + now apply Qltb_lt.
  - apply Qtied; trivial.
    + apply Qltb_false. rewrite H. apply Qle_refl.
    + now apply Qeq_bool_iff.
    + apply Qle_bool_iff. rewrite H. apply Qle_refl.
    + apply Qltb_false. rewrite H. apply Qle_refl.
Qed.

Lemma count_le_lt_eq (x : Q) (l : list Q) :
  count_le x l = count_lt x l + count_eq x l.
Proof.
  unfold count_le, count_lt, count_eq.
  induction l as [|y l IH]; simpl; trivial.
  destruct (Qorder_cases x y) as [_ H1 H2 H3 _ | _ H1 H2 H3 _ | _ H1 H2 H3 _];
    rewrite H1, H2, H3; simpl; lia.
Qed.

Lemma count_lt_eq_gt (x : Q) (l : list Q) :
  count_lt x l + count_eq x l + count_gt x l = length l.
Proof.
  unfold count_gt, count_lt, count_eq.
  induction l as [|y l IH]; simpl; trivial.
  destruct (Qorder_cases x y) as [_ H1 H2 _ H4 | _ H1 H2 _ H4 | _ H1 H2 _ H4];
    rewrite H1, H2, H4; simpl; lia.
Qed.

Lemma count_eq_pos (x : Q) (l : list Q) : In x l -> 0 < count_eq x l.
Proof.
  unfold count_eq. induction l as [|y l IH]; simpl; [tauto|].
  intros [-> | H].
  - rewrite (proj2 (Qeq_bool_iff x x) (Qeq_refl x)). simpl. lia.
  - specialize (IH H). destruct (Qeq_bool y x); simpl; lia.
Qed.

Lemma Qtests_tied (x y z : Q) :
  (y == x)%Q ->
  Qltb z y = Qltb z x /\ Qle_bool z y = Qle_bool z x
  /\ Qeq_bool z y = Qeq_bool z x /\ Qltb y z = Qltb x z.
Proof.
  intros E. repeat split; apply eq_true_iff_eq;
    rewrite ?Qltb_lt, ?Qle_bool_iff, ?Qeq_bool_iff; now rewrite E.
Qed.

Lemma counts_tied (x y : Q) (l : list Q) :
  (y == x)%Q ->
  count_lt y l = count_lt x l /\ count_le y l = count_le x l
  /\ count_eq y l = count_eq x l /\ count_gt y l = count_gt x l.
Proof.
  intros E. unfold count_lt, count_le, count_eq, count_gt.
  repeat split; f_equal; apply filter_ext; intros z;
    apply (Qtests_tied x y z E).
Qed.

Lemma average_rank_tied (ps : list Q) (x y : Q) :
  (y == x)%Q -> average_rank ps y = average_rank ps x.
Proof.
  intros E. unfold average_rank.
  destruct (counts_tied x y ps E) as (-> & -> & _). reflexivity.
Qed.

Lemma length_filter_Permutation (A : Type) (f : A -> bool) (l l' : list A) :
  Permutation l l' -> length (filter f l) = length (filter f l').
Proof.
  induction 1 as [|a l l' _ IH|a b l|l l' l'' _ IH1 _ IH2]; simpl; trivial.
  - destruct (f a); simpl; now rewrite IH.
  - destruct (f a), (f b); reflexivity.
  - now rewrite IH1.
Qed.

Lemma filter_none (A : Type) (f : A -> bool) (l : list A) :
  Forall (fun a => f a = false) l -> length (filter f l) = 0.
Proof.
  intros H. rewrite filter_nil_iff; trivial. now apply Forall_forall.
Qed.

(** ** The sorted array *)

Lemma insert_perm (x : Q) (l : list Q) : Permutation (insert x l) (x :: l).
Proof.
  induction l as [|y l IH]; simpl; trivial.
  destruct (Qle_bool x y); trivial.
  rewrite IH. apply perm_swap.
Qed.

Lemma sort_perm (l : list Q) : Permutation (sort l) l.
Proof.
  induction l as [|x l IH]; simpl; trivial.
  rewrite insert_perm. now constructor.
Qed.

Lemma insert_sorted (x : Q) (l : list Q) :
  StronglySorted Qle l -> StronglySorted Qle (insert x l).
Proof.
  induction 1 as [|y l Hs IH Hy]; simpl.
  - repeat constructor.
  - destruct (Qle_bool x y) eqn:E.
    + apply Qle_bool_iff in E. constructor.
      * now constructor.
      * constructor; trivial.
        eapply Forall_impl; [|exact Hy]. intros z Hz.
        now apply Qle_trans with y.
    + apply Qle_bool_false in E. constructor; trivial.
      eapply Permutation_Forall; [apply Permutation_sym, insert_perm|].
      constructor; trivial. now apply Qlt_le_weak.
Qed.

Lemma sort_sorted (l : list Q) : StronglySorted Qle (sort l).
Proof.
  induction l as [|x l IH]; simpl; [constructor | now apply insert_sorted].
Qed.

Lemma positions_from_sorted (x : Q) (l : list Q) :
  StronglySorted Qle l ->
  forall k, positions_from k x l = seq (k + count_lt x l) (count_eq x l).
Proof.
  induction 1 as [|y l Hs IH Hy]; intros k; simpl.
  - reflexivity.
  - unfold count_lt, count_eq in *. simpl.
    destruct (Qorder_cases x y) as [Hxy H1 H2 _ _ | Hxy H1 H2 _ _ | Hxy H1 H2 _ _];
      rewrite H1, H2; simpl.
    + rewrite IH. f_equal. lia.
    + rewrite IH.
      assert (H0 : length (filter (fun z => Qltb z x) l) = 0).
      { apply filter_none. eapply Forall_impl; [|exact Hy].
        intros z Hz. apply Qltb_false. now rewrite <- Hxy. }
      rewrite H0, !Nat.add_0_r. reflexivity.
    + rewrite IH.
      assert (H0 : length (filter (fun z => Qeq_bool z x) l) = 0).
      { apply filter_none. eapply Forall_impl; [|exact Hy].
        intros z Hz. apply Qeq_bool_false. intros E. rewrite E in Hz.
        exact (Qlt_not_le _ _ Hxy Hz). }
      now rewrite H0.
Qed.

(** The cells tied with [x] fill the block of ordinal positions that
    starts after the smaller cells. *)
Lemma ordinal_positions_block (ps : list Q) (x : Q) :
  ordinal_positions ps x = seq (1 + count_lt x ps) (count_eq x ps).
Proof.
  unfold ordinal_positions.
  rewrite (positions_from_sorted x (sort ps) (sort_sorted ps) 1).
  unfold count_lt, count_eq.
  now rewrite !(length_filter_Permutation _ _ _ _ (sort_perm ps)).
Qed.

Lemma sum_nat_seq (a n : nat) : 2 * sum_nat (seq a n) + n = n * (2 * a + n).
Proof.
  revert a. induction n as [|n IH]; intros a; simpl; trivial.
  specialize (IH (S a)). unfold sum_nat in *. nia.
Qed.

Lemma in_present (data : Column) (i : nat) (x : Q) :
  nth_error data i = Some (Some x) -> In x (present data).
Proof.
  revert i. induction data as [|[y|] data IH]; intros [|i]; simpl;
    try discriminate; eauto.
  intros H. inversion H. now left.
Qed.

Lemma Qsum_constant (r : Q) (l : list Q) :
  Forall (fun y => y = r) l -> (Qsum l == r * Qnat (length l))%Q.
Proof.
  unfold Qnat. induction 1 as [|y l -> _ IH]; simpl Qsum; simpl length.
  - simpl. ring.
  - rewrite IH, Nat2Z.inj_succ. unfold Z.succ.
    rewrite inject_Z_plus. change (inject_Z 1) with 1%Q. ring.
Qed.

(** The closed form of the average rank of a cell of the array. *)
Lemma average_rank_closed_form (ps : list Q) (x : Q) :
  In x ps ->
  (1 <= average_rank ps x)%Q
  /\ (average_rank ps x <= Qnat (length ps))%Q
  /\ (average_rank ps x * Qnat (count_eq x ps)
      == Qnat (sum_nat (ordinal_positions ps x)))%Q.
Proof.
  intros Hin. unfold average_rank, Qnat.
  pose proof (count_eq_pos x ps Hin) as He.
  pose proof (count_le_lt_eq x ps) as Hle.
  pose proof (count_lt_eq_gt x ps) as Hn.
  pose proof (sum_nat_seq (1 + count_lt x ps) (count_eq x ps)) as Hs.
  rewrite <- ordinal_positions_block in Hs.
  set (S := sum_nat (ordinal_positions ps x)) in *.
  set (L := count_lt x ps) in *. set (E := count_eq x ps) in *.
  set (G := count_gt x ps) in *. rewrite Hle.
  repeat split.
  - unfold Qle. simpl. lia.
  - unfold Qle. simpl. lia.
  - unfold Qeq, Qmult, inject_Z. simpl. nia.
Qed.

(** ** The top filter *)

Lemma count_true_cons (b : bool) (m : list bool) :
  count_true (b :: m) = (if b then 1 else 0) + count_true m.
Proof. unfold count_true. simpl. now destruct b. Qed.

Lemma top_counts_desc_ranks (N : nat) (ps : list Q) (data : Column) :
  forall seen,
    count_true (map (rank_le N) (rankdata_ordinal_desc ps seen data))
    = length (filter (fun k => k <=? N) (desc_ranks ps seen (present data))).
Proof.
  induction data as [|[x|] data IH]; intros seen; trivial.
  - cbn [rankdata_ordinal_desc map present desc_ranks filter].
    rewrite count_true_cons, IH. cbn [rank_le].
    now destruct (_ <=? N).
  - cbn [rankdata_ordinal_desc map present].
    rewrite count_true_cons, IH. reflexivity.
Qed.

Lemma count_gt_above (x y : Q) (l : list Q) :
  (x < y)%Q -> count_gt y l + count_eq y l <= count_gt x l.
Proof.
  intros Hxy. unfold count_gt, count_eq.
  induction l as [|z l IH]; simpl; trivial.
  destruct (Qorder_cases y z) as [Hz _ H2 _ H4 | Hz _ H2 _ H4 | Hz _ H2 _ H4];
    rewrite H2, H4.
  - destruct (Qltb x z); simpl; lia.
  - assert (H : Qltb x z = true) by (apply Qltb_lt; now rewrite Hz).
    rewrite H. simpl. lia.
  - assert (H : Qltb x z = true).
    { apply Qltb_lt. now apply Qlt_trans with y. }
    rewrite H. simpl. lia.
Qed.

Lemma count_eq_cons (y x : Q) (l : list Q) :
  count_eq y (x :: l) = (if Qeq_bool x y then 1 else 0) + count_eq y l.
Proof. unfold count_eq. simpl. now destruct (Qeq_bool x y). Qed.

Lemma slot_weaken (ps seen : list Q) (x : Q) (k : nat) :
  slot ps (x :: seen) k -> slot ps seen k.
Proof.
  intros (y & e & Hk & He). exists y, e. split; trivial.
  rewrite count_eq_cons in He. lia.
Qed.

Lemma slot_range (ps seen : list Q) (k : nat) :
  slot ps seen k -> 1 <= k <= length ps.
Proof.
  intros (y & e & Hk & He). pose proof (count_lt_eq_gt y ps). lia.
Qed.

(** The head's rank is not free any more once the head is seen. *)
Lemma slot_not_head (ps seen : list Q) (x : Q) :
  count_eq x seen < count_eq x ps ->
  ~ slot ps (x :: seen) (1 + count_gt x ps + count_eq x seen).
Proof.
  intros Hx (y & e & Hk & He). rewrite count_eq_cons in He.
  destruct (Qorder_cases x y) as [Hyx _ H2 _ _ | Hyx _ H2 _ _ | Hyx _ _ _ _].
  - pose proof (count_gt_above y x ps Hyx).
    destruct (Qeq_bool x y); lia.
  - destruct (counts_tied x y ps Hyx) as (_ & _ & _ & Hg).
    destruct (counts_tied x y seen Hyx) as (_ & _ & He' & _).
    assert (E : Qeq_bool x y = true).
    { apply Qeq_bool_iff. now symmetry. }
    rewrite E in He. lia.
  - pose proof (count_gt_above x y ps Hyx). lia.
Qed.

Lemma desc_ranks_slots (ps : list Q) (l : list Q) :
  forall seen,
    (forall y, count_eq y ps = count_eq y seen + count_eq y l) ->
    Forall (slot ps seen) (desc_ranks ps seen l)
    /\ NoDup (desc_ranks ps seen l).
Proof.
  induction l as [|x l IH]; intros seen Hinv; simpl.
  - split; constructor.
  - assert (Hx : count_eq x seen < count_eq x ps).
    { rewrite (Hinv x), count_eq_cons.
      rewrite (proj2 (Qeq_bool_iff x x) (Qeq_refl x)). lia. }
    destruct (IH (x :: seen)) as [Hslots Hnd].
    { intros y. rewrite (Hinv y), !count_eq_cons. lia. }
    split.
    + constructor.
      * exists x, (count_eq x seen). split; [reflexivity | lia].
      * eapply Forall_impl; [|exact Hslots]. intros k. apply slot_weaken.
    + constructor; trivial. intros Hin.
      rewrite Forall_forall in Hslots.
      exact (slot_not_head ps seen x Hx (Hslots _ Hin)).
Qed.

Lemma length_desc_ranks (ps l : list Q) :
  forall seen, length (desc_ranks ps seen l) = length l.
Proof. induction l as [|x l IH]; intros seen; simpl; now rewrite ?IH. Qed.

(** The ordinal ranks of the ranked cells are 1, 2, ..., up to their
    number, each given once. *)
Lemma desc_ranks_perm (ps : list Q) :
  Permutation (desc_ranks ps [] ps) (seq 1 (length ps)).
Proof.
  destruct (desc_ranks_slots ps ps []) as [Hslots Hnd].
  { intros y. reflexivity. }
  apply NoDup_Permutation_bis; trivial.
  - now rewrite length_seq, length_desc_ranks.
  - intros k Hk. rewrite Forall_forall in Hslots.
    apply in_seq. pose proof (slot_range _ _ _ (Hslots k Hk)). lia.
Qed.

Lemma count_le_seq (N n : nat) :
  length (filter (fun k => k <=? N) (seq 1 n)) = Nat.min N n.
Proof.
  induction n as [|n IH]; [now rewrite Nat.min_0_r|].
  rewrite seq_S, filter_app, length_app, IH. cbn [filter Nat.add].
  destruct (Nat.leb_spec (S n) N); cbn [length]; lia.
Qed.

(** [top N] marks as many rows as there are ranked cells, up to [N]. *)
Lemma count_top (N : nat) (data : Column) (mask : Filter) :
  count_true (top N data mask)
  = Nat.min N (length (present (mask_data data mask))).
Proof.
  unfold top, rank_ordinal_desc. cbv zeta.
  rewrite top_counts_desc_ranks.
  rewrite (length_filter_Permutation _ _ _ _ (desc_ranks_perm _)).
  apply count_le_seq.
Qed.

(** ** Which cells are defined *)

Lemma length_present (data : Column) :
  length (present data) = count_true (map is_some data).
Proof.
  induction data as [|[x|] data IH]; trivial;
    cbn [present map is_some]; rewrite count_true_cons; simpl; now rewrite IH.
Qed.

Lemma count_true_map (A : Type) (f : A -> bool) (l : list A) :
  count_true (map f l) = length (filter f l).
Proof.
  induction l as [|a l IH]; trivial. cbn [map filter].
  rewrite count_true_cons, IH. now destruct (f a).
Qed.

Lemma is_some_mask_data (data : Column) (mask : Filter) :
  map is_some (mask_data data mask) = map2 andb mask (map is_some data).
Proof.
  unfold mask_data. revert mask.
  induction data as [|v data IH]; intros [|m mask]; simpl; trivial.
  rewrite IH. now destruct m.
Qed.

Lemma is_some_rank_average (data : Column) (mask : Filter) :
  map is_some (rank_average data mask) = map2 andb mask (map is_some data).
Proof.
  unfold rank_average, rankdata_average. cbv zeta.
  rewrite map_map, <- is_some_mask_data.
  apply map_ext. now intros [x|].
Qed.

Lemma is_some_fadd (a b : Column) :
  map is_some (map2 fadd a b) = map2 andb (map is_some a) (map is_some b).
Proof.
  revert b. induction a as [|x a IH]; intros [|y b]; simpl; trivial.
  rewrite IH. now destruct x, y.
Qed.

Lemma is_some_factor_rank (f : SecurityRecord -> fval) (t : Table) :
  map is_some (rank_average (map f t) (universe t))
  = map (fun r => min_liq_univ r && is_some (f r)) t.
Proof.
  rewrite is_some_rank_average, map_map. unfold universe.
  apply (map2_map _ _ _ _ andb min_liq_univ (fun r => is_some (f r))).
Qed.

Lemma is_some_qvm (t : Table) :
  map is_some (mask_data (qvm t) (universe t)) = map rankable t.
Proof.
  rewrite is_some_mask_data. unfold qvm.
  rewrite is_some_rank_average. unfold composite_raw.
  rewrite !is_some_fadd. unfold quality, value, momentum.
  rewrite !is_some_factor_rank. unfold universe.
  rewrite !map2_map. apply map_ext. intros r. unfold rankable.
  destruct (min_liq_univ r), (is_some (roe r)), (is_some (fcf_yield r)),
    (is_some (ret_20 r)); reflexivity.
Qed.

(** The cells the composite rank is defined on are the rankable rows. *)
Lemma ranked_rows (t : Table) :
  length (present (mask_data (qvm t) (universe t)))
  = length (filter rankable t).
Proof. now rewrite length_present, is_some_qvm, count_true_map. Qed.

(** ** The size of the selection *)

Lemma length_ordinal_desc (ps : list Q) (data : Column) :
  forall seen, length (rankdata_ordinal_desc ps seen data) = length data.
Proof.
  induction data as [|[x|] data IH]; intros seen; simpl; now rewrite ?IH.
Qed.

Lemma length_long_10 (t : Table) : length (long_10 t) = length t.
Proof.
  unfold long_10, top, rank_ordinal_desc. cbv zeta.
  rewrite length_map, length_ordinal_desc.
  unfold mask_data, qvm. rewrite length_map2, length_rank_average.
  unfold composite_raw. rewrite !length_map2.
  unfold quality, value, momentum. rewrite !length_rank_average.
  unfold universe. rewrite !length_map. lia.
Qed.

Lemma count_true_seq (l : list bool) :
  forall k,
    length (filter (fun i => nth (i - k) l false) (seq k (length l)))
    = count_true l.
Proof.
  induction l as [|b l IH]; intros k; trivial.
  cbn [length seq filter]. rewrite Nat.sub_diag, count_true_cons.
  cbn [nth]. rewrite <- (IH (S k)).
  rewrite (filter_ext_in (fun i => nth (i - k) (b :: l) false)
             (fun i => nth (i - S k) l false)).
  - now destruct b.
  - intros i Hi. apply in_seq in Hi.
    replace (i - k) with (S (i - S k)) by lia. reflexivity.
Qed.

Lemma filter_filter_implied (A : Type) (f g : A -> bool) (l : list A) :
  (forall a, f a = true -> g a = true) ->
  filter f (filter g l) = filter f l.
Proof.
  intros H. induction l as [|a l IH]; simpl; trivial.
  destruct (g a) eqn:Hg; simpl.
  - now rewrite IH.
  - destruct (f a) eqn:Hf; trivial. rewrite (H a Hf) in Hg. discriminate.
Qed.

Lemma long_10_in_universe (t : Table) (i : nat) :
  nth i (long_10 t) false = true -> nth i (universe t) false = true.
Proof.
  rewrite !nth_true_nth_error. unfold long_10. intros H.
  apply nth_error_top_true in H. destruct H as (x & Hx).
  now apply nth_error_mask_data_Some in Hx.
Qed.

Lemma length_longs (context : Context) (t : Table) :
  length (longs (before_trading_start context t)) = count_true (long_10 t).
Proof.
  rewrite longs_before_trading_start, length_map.
  rewrite filter_filter_implied by apply long_10_in_universe.
  rewrite <- (count_true_seq (long_10 t) 0), length_long_10.
  f_equal. apply filter_ext. intros i. now rewrite Nat.sub_0_r.
Qed.

Lemma rankable_le_universe (t : Table) :
  length (filter rankable t) <= universe_size t.
Proof.
  unfold universe_size. rewrite <- count_true_map.
  apply count_true_le. intros r. unfold rankable.
  now destruct (min_liq_univ r).
Qed.

(** C5 (amended): the longs are rows of the universe, and there are
    min(10, n) of them, where n counts the universe rows whose
    return-on-equity, free-cash-flow yield and 20-day return are all
    present; n is at most the size of the universe, and the selection is
    short of 10 only when n is. *)
Theorem selection_size (t : Table) (context : Context) :
  let selection := longs (before_trading_start context t) in
  (forall s, In s selection ->
     exists r, In r t /\ sid r = s /\ min_liq_univ r = true)
  /\ length selection = Nat.min 10 (length (filter rankable t))
  /\ length (filter rankable t) <= universe_size t
  /\ length selection <= 10
  /\ (length selection < 10 -> length (filter rankable t) < 10).
Proof.
  cbv zeta.
  assert (Hlen : length (longs (before_trading_start context t))
                 = Nat.min 10 (length (filter rankable t))).
  { rewrite length_longs. unfold long_10.
    now rewrite count_top, ranked_rows. }
  split; [|split; [exact Hlen | split; [apply rankable_le_universe | lia]]].
  intros s Hs. apply in_longs in Hs.
  destruct Hs as (i & r & Hr & Hs & Hu & _).
  exists r. split; [now apply nth_error_In with i | now split].
Qed.

(** C5 as worded fails: one row passes every screen but has no
    return-on-equity; the universe has one member and nothing is
    selected. *)
Lemma selection_as_specified_fails :
  ~ selection_as_specified
      [mkSecurityRecord 1 (Some 60000000%Q) (Some 5%Q) (Some 300000%Q)
         (Some "NYS"%string) None (Some 1%Q) (Some 1%Q) (Some 1%Q)].
Proof.
  intros H. destruct (H (mkContext [] [] [] [])) as [_ Hlen].
  vm_compute in Hlen. discriminate Hlen.
Qed.

(** ** The theorems at the worked data *)

Lemma rebalance_opens_witness :
  In 1 (longs monday)
  /\ In (1, long_weight) (orders (rebalance monday all_but_2))
  /\ (forall w, ~ In (2, w) (orders (rebalance monday all_but_2)))
  /\ (forall w, ~ In (3, w) (orders (rebalance monday all_but_2))).
Proof.
  split; [simpl; auto|]. split; [|split].
  - apply (rebalance_opens monday all_but_2 1); [simpl; auto | |]; reflexivity.
  - apply (rebalance_opens monday all_but_2 2); [simpl; auto | right; reflexivity].
  - apply (rebalance_opens monday all_but_2 3); [simpl; auto | left; reflexivity].
Defined.

Lemma rebalance_closes_iff_tradable_witness :
  held 4 (positions monday) = true
  /\ ~ In 4 (longs monday)
  /\ In (4, 0%Q) (orders (rebalance monday all_but_2)).
Proof.
  assert (Hn : ~ In 4 (longs monday)).
  { simpl. intros [H | [H | [H | H]]]; try discriminate H. exact H. }
  split; [reflexivity|]. split; [exact Hn|].
  apply (rebalance_closes_iff_tradable monday all_but_2 4 eq_refl Hn).
  reflexivity.
Defined.

Lemma manual_value_not_ranked_witness :
  Forall2 same_but_fcf_per_share
    [listed 1 (Some 1%Q) (Some 2%Q) (Some 3%Q)]
    [mkSecurityRecord 1 (Some 60000000%Q) (Some 5%Q) (Some 300000%Q)
       (Some "NYS"%string) (Some 1%Q) (Some 2%Q) (Some 40%Q) (Some 3%Q)]
  /\ qvm [listed 1 (Some 1%Q) (Some 2%Q) (Some 3%Q)]
     = qvm [mkSecurityRecord 1 (Some 60000000%Q) (Some 5%Q) (Some 300000%Q)
              (Some "NYS"%string) (Some 1%Q) (Some 2%Q) (Some 40%Q)
              (Some 3%Q)].
Proof.
  assert (H : Forall2 same_but_fcf_per_share
                [listed 1 (Some 1%Q) (Some 2%Q) (Some 3%Q)]
                [mkSecurityRecord 1 (Some 60000000%Q) (Some 5%Q)
                   (Some 300000%Q) (Some "NYS"%string) (Some 1%Q) (Some 2%Q)
                   (Some 40%Q) (Some 3%Q)]).
  { repeat constructor. }
  split; [exact H|].
  apply (manual_value_not_ranked _ _ monday H).
Defined.

Lemma rebalance_idempotent_witness :
  (forall s : security, (fun _ => true) s = true)
  /\ orders
       (rebalance
          (with_positions monday
             (fill_all (orders (rebalance monday (fun _ => true)))
                       (positions monday)))
          all_but_2)
     = [].
Proof.
  split; [reflexivity|].
  apply (rebalance_idempotent monday (fun _ => true) all_but_2).
  reflexivity.
Defined.

Lemma liq_univ_antitone_witness :
  (minCap source_params <= minCap stricter_params)%Q
  /\ (minPrice source_params <= minPrice stricter_params)%Q
  /\ (minVolume source_params <= minVolume stricter_params)%Q
  /\ otcPrefix source_params = otcPrefix stricter_params
  /\ count_true (map (liq_univ_with stricter_params) four_rows)
     <= count_true (map (liq_univ_with source_params) four_rows).
Proof.
  assert (Hc : (minCap source_params <= minCap stricter_params)%Q).
  { unfold Qle. simpl. lia. }
  assert (Hp : (minPrice source_params <= minPrice stricter_params)%Q).
  { unfold Qle. simpl. lia. }
  assert (Hv : (minVolume source_params <= minVolume stricter_params)%Q).
  { unfold Qle. simpl. lia. }
  repeat (split; trivial).
  apply (liq_univ_antitone source_params stricter_params four_rows Hc Hp Hv
           eq_refl).
Defined.

Lemma null_factor_never_selected_witness :
  NoDup (map sid four_rows)
  /\ nth_error four_rows 2 = Some (listed 3 None (Some 5%Q) (Some 3%Q))
  /\ min_liq_univ (listed 3 None (Some 5%Q) (Some 3%Q)) = true
  /\ roe (listed 3 None (Some 5%Q) (Some 3%Q)) = None
  /\ nth_error (qvm four_rows) 2 = Some None
  /\ ~ In 3 (longs (before_trading_start monday four_rows)).
Proof.
  assert (Hnd : NoDup (map sid four_rows)).
  { simpl. repeat constructor; simpl; intros H;
      repeat (destruct H as [H | H]; [discriminate H|]); exact H. }
  pose proof (null_factor_never_selected four_rows monday 2
                (listed 3 None (Some 5%Q) (Some 3%Q)) Hnd eq_refl eq_refl
                (or_introl eq_refl)) as (Hq & _ & _ & Hl).
  repeat (split; trivial).
Defined.

(** ** Order of the average ranks *)

Lemma count_le_below (x y : Q) (l : list Q) :
  (x < y)%Q -> count_le x l <= count_lt y l.
Proof.
  intros Hxy. unfold count_le, count_lt.
  induction l as [|z l IH]; simpl; trivial.
  destruct (Qle_bool z x) eqn:Hz.
  - apply Qle_bool_iff in Hz.
    assert (H : Qltb z y = true).
    { apply Qltb_lt. now apply Qle_lt_trans with x. }
    rewrite H. simpl. lia.
  - destruct (Qltb z y); simpl; lia.
Qed.

Lemma average_rank_lt (ps : list Q) (x y : Q) :
  In x ps -> (x < y)%Q -> (average_rank ps x < average_rank ps y)%Q.
Proof.
  intros Hx Hxy. unfold average_rank, Qlt. simpl.
  pose proof (count_le_below x y ps Hxy).
  pose proof (count_le_lt_eq x ps). pose proof (count_le_lt_eq y ps).
  pose proof (count_eq_pos x ps Hx). lia.
Qed.

(** Among the ranked cells the average rank orders as the values do. *)
Lemma average_rank_order (ps : list Q) (x y : Q) :
  In x ps -> In y ps ->
  ((x < y)%Q <-> (average_rank ps x < average_rank ps y)%Q)
  /\ ((x == y)%Q <-> (average_rank ps x == average_rank ps y)%Q).
Proof.
  intros Hx Hy.
  destruct (Q_dec x y) as [[H | H] | H].
  - pose proof (average_rank_lt ps x y Hx H) as Hr. split; split; trivial.
    + intros E. rewrite E in H. now apply Qlt_irrefl in H.
    + intros E. rewrite E in Hr. now apply Qlt_irrefl in Hr.
  - pose proof (average_rank_lt ps y x Hy H) as Hr. split; split.
    + intros H'. exfalso. exact (Qlt_irrefl _ (Qlt_trans _ _ _ H H')).
    + intros H'. exfalso. exact (Qlt_irrefl _ (Qlt_trans _ _ _ Hr H')).
    + intros E. rewrite E in H. now apply Qlt_irrefl in H.
    + intros E. rewrite E in Hr. now apply Qlt_irrefl in Hr.
  - rewrite (average_rank_tied ps y x H). split; split; trivial.
    + intros H'. rewrite H in H'. now apply Qlt_irrefl in H'.
    + intros H'. now apply Qlt_irrefl in H'.
    + intros _. reflexivity.
Qed.

(** X1: [rank(method='average', mask)] keeps the order of the values
    ("higher is better"): of two ranked cells the one with the larger
    value has the larger rank, and two cells have equal ranks exactly
    when their values are equal. *)
Theorem rank_average_order (data : Column) (mask : Filter) (i j : nat)
  (x y : Q) :
  nth_error (mask_data data mask) i = Some (Some x) ->
  nth_error (mask_data data mask) j = Some (Some y) ->
  exists rx ry,
    nth_error (rank_average data mask) i = Some (Some rx)
    /\ nth_error (rank_average data mask) j = Some (Some ry)
    /\ ((x < y)%Q <-> (rx < ry)%Q)
    /\ ((x == y)%Q <-> (rx == ry)%Q).
Proof.
  intros Hi Hj.
  exists (average_rank (present (mask_data data mask)) x),
         (average_rank (present (mask_data data mask)) y).
  split; [exact (nth_error_rank_average data mask i (Some x) Hi)|].
  split; [exact (nth_error_rank_average data mask j (Some y) Hj)|].
  apply average_rank_order; eapply in_present; eassumption.
Qed.

Lemma rank_average_order_witness :
  nth_error (mask_data seven_cells all_rows) 1 = Some (Some 2%Q)
  /\ nth_error (mask_data seven_cells all_rows) 4 = Some (Some 9%Q)
  /\ exists rx ry,
       nth_error (rank_average seven_cells all_rows) 1 = Some (Some rx)
       /\ nth_error (rank_average seven_cells all_rows) 4 = Some (Some ry)
       /\ (rx < ry)%Q.
Proof.
  split; [reflexivity|]. split; [reflexivity|].
  destruct (rank_average_order seven_cells all_rows 1 4 2%Q 9%Q eq_refl eq_refl)
    as (rx & ry & Hx & Hy & Hlt & _).
  exists rx, ry. split; [exact Hx|]. split; [exact Hy|].
  apply Hlt. reflexivity.
Defined.

(** ** The total of the average ranks *)

Lemma sum_nat_map_add (A : Type) (f g : A -> nat) (l : list A) :
  sum_nat (map (fun a => f a + g a) l)
  = sum_nat (map f l) + sum_nat (map g l).
Proof.
  unfold sum_nat. induction l as [|a l IH]; simpl; trivial. rewrite IH. lia.
Qed.

Lemma sum_nat_map_const (A : Type) (c : nat) (l : list A) :
  sum_nat (map (fun _ => c) l) = c * length l.
Proof.
  unfold sum_nat. induction l as [|a l IH]; simpl; [lia|]. rewrite IH. lia.
Qed.

Lemma length_filter_sum (A : Type) (f : A -> bool) (l : list A) :
  length (filter f l) = sum_nat (map (fun a => if f a then 1 else 0) l).
Proof.
  unfold sum_nat. induction l as [|a l IH]; simpl; trivial.
  destruct (f a); simpl; now rewrite IH.
Qed.

(** Counting the pairs (smaller, larger) from either side. *)
Lemma sum_count_swap (l m : list Q) :
  sum_nat (map (fun x => count_lt x m) l)
  = sum_nat (map (fun y => count_gt y l) m).
Proof.
  induction l as [|a l IH].
  - simpl. change (fun y : Q => count_gt y []) with (fun _ : Q => 0).
    now rewrite sum_nat_map_const.
  - cbn [map]. change (sum_nat (?k :: ?r)) with (k + sum_nat r). rewrite IH.
    rewrite (map_ext (fun y => count_gt y (a :: l))
               (fun y => (if Qltb y a then 1 else 0) + count_gt y l)).
    + rewrite sum_nat_map_add. f_equal. unfold count_lt.
      apply length_filter_sum.
    + intros y. unfold count_gt. simpl. now destruct (Qltb y a).
Qed.

Lemma sum_rank_numerators (ps : list Q) :
  sum_nat (map (fun x => count_le x ps + count_lt x ps + 1) ps)
  = length ps * (length ps + 1).
Proof.
  pose proof (sum_count_swap ps ps) as Hswap.
  assert (Hall : sum_nat (map (fun x => count_lt x ps + count_eq x ps
                                        + count_gt x ps) ps)
                 = length ps * length ps).
  { rewrite (map_ext _ (fun _ => length ps)).
    - apply sum_nat_map_const.
    - intros x. apply count_lt_eq_gt. }
  rewrite !sum_nat_map_add in Hall.
  rewrite (map_ext _ (fun x => count_lt x ps + count_eq x ps
                               + count_lt x ps + 1)).
  - rewrite !sum_nat_map_add, sum_nat_map_const. lia.
  - intros x. rewrite count_le_lt_eq. lia.
Qed.

Lemma Qnat_add (a b : nat) : (Qnat (a + b) == Qnat a + Qnat b)%Q.
Proof. unfold Qnat. now rewrite Nat2Z.inj_add, inject_Z_plus. Qed.

Lemma Qsum_average_ranks (ps l : list Q) :
  (Qsum (map (average_rank ps) l)
   == Qnat (sum_nat (map (fun x => (count_le x ps + count_lt x ps + 1)%nat)
                         l)) / 2)%Q.
Proof.
  induction l as [|x l IH].
  - reflexivity.
  - cbn [map Qsum fold_right]. fold (Qsum (map (average_rank ps) l)).
    rewrite IH. change (sum_nat (?k :: ?r)) with (k + sum_nat r).
    rewrite Qnat_add. unfold average_rank at 1. rewrite Qmake_Qdiv.
    fold (Qnat (count_le x ps + count_lt x ps + 1)).
    change (inject_Z 2) with 2%Q. field.
Qed.

Lemma present_rankdata (ps : list Q) (data : Column) :
  present (map (fun v => match v with
                         | Some x => Some (average_rank ps x)
                         | None => None
                         end) data)
  = map (average_rank ps) (present data).
Proof.
  induction data as [|[x|] data IH]; simpl; now rewrite ?IH.
Qed.

(** X2: whatever the ties, the average ranks of a column add up to
    n (n + 1) / 2, the total of the ordinal ranks 1, ..., n of its n
    ranked cells. *)
Theorem rank_average_total (data : Column) (mask : Filter) :
  (Qsum (present (rank_average data mask))
   == Qnat (length (present (mask_data data mask))
            * (length (present (mask_data data mask)) + 1)) / 2)%Q.
Proof.
  unfold rank_average, rankdata_average. cbv zeta.
  rewrite present_rankdata, Qsum_average_ranks.
  now rewrite sum_rank_numerators.
Qed.

(** ** What the top filter keeps *)

(** The ordinal rank of the cell at row [i]: one more than the larger
    cells and the equal cells of earlier rows. *)
Lemma ordinal_desc_at (ps : list Q) (data : Column) :
  forall i seen x,
    nth_error data i = Some (Some x) ->
    nth_error (rankdata_ordinal_desc ps seen data) i
    = Some (Some (1 + count_gt x ps
                  + (count_eq x seen + count_eq x (present (firstn i data))))).
Proof.
  induction data as [|[y|] data IH]; intros [|i] seen x H; simpl in H;
    try discriminate.
  - inversion H; subst. simpl. unfold count_eq at 2. simpl.
    now rewrite Nat.add_0_r.
  - cbn [rankdata_ordinal_desc nth_error firstn present].
    rewrite (IH i (y :: seen) x H), !count_eq_cons. do 2 f_equal. lia.
  - cbn [rankdata_ordinal_desc nth_error firstn present].
    now rewrite (IH i seen x H).
Qed.

Lemma count_eq_before (data : Column) :
  forall i x,
    nth_error data i = Some (Some x) ->
    count_eq x (present (firstn i data)) < count_eq x (present data).
Proof.
  induction data as [|[y|] data IH]; intros [|i] x H; simpl in H;
    try discriminate.
  - inversion H; subst. simpl. rewrite count_eq_cons.
    rewrite (proj2 (Qeq_bool_iff x x) (Qeq_refl x)).
    unfold count_eq at 1. simpl. lia.
  - cbn [firstn present]. rewrite !count_eq_cons.
    specialize (IH i x H). lia.
  - cbn [firstn present]. now apply IH.
Qed.

Lemma count_eq_earlier (data : Column) (x : Q) :
  forall i j,
    i <= j ->
    count_eq x (present (firstn i data))
    <= count_eq x (present (firstn j data)).
Proof.
  induction data as [|[y|] data IH]; intros [|i] [|j] Hij;
    cbn [firstn present]; try lia.
  - unfold count_eq at 1. simpl. lia.
  - rewrite !count_eq_cons. specialize (IH i j). lia.
  - unfold count_eq at 1. simpl. lia.
  - apply IH. lia.
Qed.

(** When [top N] marks the row at [i]. *)
Lemma top_at (N : nat) (data : Column) (mask : Filter) (i : nat) (x : Q) :
  nth_error (mask_data data mask) i = Some (Some x) ->
  exists b,
    nth_error (top N data mask) i = Some b
    /\ (b = true <->
        count_gt x (present (mask_data data mask))
        + count_eq x (present (firstn i (mask_data data mask))) < N).
Proof.
  intros H. unfold top, rank_ordinal_desc. cbv zeta.
  rewrite nth_error_map, (ordinal_desc_at _ _ i [] x H).
  unfold count_eq at 1. cbn [filter length Nat.add option_map rank_le].
  eexists. split; [reflexivity|].
  rewrite Nat.leb_le. lia.
Qed.

Lemma top_dominates (N : nat) (data : Column) (mask : Filter) (i j : nat)
  (x y : Q) :
  nth_error (mask_data data mask) i = Some (Some x) ->
  nth_error (mask_data data mask) j = Some (Some y) ->
  nth_error (top N data mask) i = Some true ->
  nth_error (top N data mask) j = Some false ->
  (y <= x)%Q /\ ((y == x)%Q -> i < j).
Proof.
  intros Hi Hj Ti Tj.
  destruct (top_at N data mask i x Hi) as (bi & Hbi & Ti').
  destruct (top_at N data mask j y Hj) as (bj & Hbj & Tj').
  rewrite Hbi in Ti. rewrite Hbj in Tj.
  injection Ti as ->. injection Tj as ->.
  assert (Ti'' := proj1 Ti' eq_refl).
  assert (Tj'' : ~ (count_gt y (present (mask_data data mask))
                    + count_eq y (present (firstn j (mask_data data mask)))
                    < N)).
  { intros H. apply Tj' in H. discriminate H. }
  clear Ti' Tj'.
  pose proof (count_eq_before _ j y Hj) as Bj.
  set (ps := present (mask_data data mask)) in *.
  split.
  - destruct (Qlt_le_dec x y) as [Hxy | Hyx]; trivial.
    pose proof (count_gt_above x y ps Hxy). lia.
  - intros E. destruct (Nat.lt_ge_cases i j) as [Hij | Hji]; trivial.
    destruct (counts_tied x y ps E) as (_ & _ & _ & Hg).
    destruct (counts_tied x y (present (firstn i (mask_data data mask))) E)
      as (_ & _ & He & _).
    destruct (counts_tied x y (present (firstn j (mask_data data mask))) E)
      as (_ & _ & He' & _).
    pose proof (count_eq_earlier (mask_data data mask) x j i Hji). lia.
Qed.

(** When a column has no more than [N] ranked cells, [top N] marks
    every one of them, and only them. *)
Lemma top_takes_all (N : nat) (data : Column) (mask : Filter) (i : nat)
  (v : option Q) :
  length (present (mask_data data mask)) <= N ->
  nth_error (mask_data data mask) i = Some v ->
  nth_error (top N data mask) i = Some (is_some v).
Proof.
  intros Hn Hi. destruct v as [x|].
  - destruct (top_at N data mask i x Hi) as (b & Hb & Hiff).
    rewrite Hb. f_equal. apply Hiff.
    pose proof (count_eq_before _ i x Hi).
    pose proof (count_lt_eq_gt x (present (mask_data data mask))).
    lia.
  - now apply nth_error_top_None.
Qed.

(** ** The longs and the scores *)

Lemma nth_error_rank_average_Some (data : Column) (mask : Filter) (i : nat)
  (r : Q) :
  nth_error (rank_average data mask) i = Some (Some r) ->
  exists x,
    nth_error (mask_data data mask) i = Some (Some x)
    /\ r = average_rank (present (mask_data data mask)) x.
Proof.
  unfold rank_average, rankdata_average. cbv zeta. rewrite nth_error_map.
  destruct (nth_error (mask_data data mask) i) as [[x|]|]; simpl;
    try discriminate.
  intros H. exists x. split; trivial. congruence.
Qed.

Lemma rankable_ranked (t : Table) (i : nat) (r : SecurityRecord) :
  nth_error t i = Some r ->
  exists v,
    nth_error (mask_data (qvm t) (universe t)) i = Some v
    /\ is_some v = rankable r.
Proof.
  intros Hr.
  pose proof (f_equal (fun l => nth_error l i) (is_some_qvm t)) as H.
  cbv beta in H. rewrite !nth_error_map, Hr in H.
  destruct (nth_error (mask_data (qvm t) (universe t)) i) as [v|];
    simpl in H; [|discriminate].
  exists v. split; trivial. congruence.
Qed.

(** The raw composite behind a defined composite rank. *)
Lemma qvm_of_composite (t : Table) (i : nat) (q : Q) :
  nth_error (mask_data (qvm t) (universe t)) i = Some (Some q) ->
  exists c,
    nth_error (composite_raw t) i = Some (Some c)
    /\ In c (present (mask_data (composite_raw t) (universe t)))
    /\ q = average_rank (present (mask_data (composite_raw t) (universe t))) c.
Proof.
  intros H. apply nth_error_mask_data_Some in H. destruct H as [H _].
  unfold qvm in H. apply nth_error_rank_average_Some in H.
  destruct H as (c & Hc & ->). exists c. split; [|split; trivial].
  - now apply nth_error_mask_data_Some in Hc.
  - eapply in_present. exact Hc.
Qed.

(** X3: the longs are the rows with the highest scores.  A row that
    [long_10] marks has a rank sum quality + value + momentum at least
    that of any rankable row left out, and with equal sums the earlier
    row of the table is the one taken. *)
Theorem longs_have_highest_scores (t : Table) (i j : nat)
  (rj : SecurityRecord) :
  nth_error (long_10 t) i = Some true ->
  nth_error t j = Some rj ->
  rankable rj = true ->
  nth_error (long_10 t) j = Some false ->
  exists ci cj,
    nth_error (composite_raw t) i = Some (Some ci)
    /\ nth_error (composite_raw t) j = Some (Some cj)
    /\ (cj <= ci)%Q
    /\ ((cj == ci)%Q -> i < j).
Proof.
  intros Ti Hj Hrank Tj. unfold long_10 in Ti, Tj.
  destruct (nth_error_top_true 10 _ _ i Ti) as (qi & Hqi).
  destruct (rankable_ranked t j rj Hj) as ([qj|] & Hqj & Hsome);
    [|rewrite Hrank in Hsome; discriminate].
  destruct (top_dominates 10 _ _ i j qi qj Hqi Hqj Ti Tj) as [Hle Htie].
  destruct (qvm_of_composite t i qi Hqi) as (ci & Hci & Ini & Ei).
  destruct (qvm_of_composite t j qj Hqj) as (cj & Hcj & Inj & Ej).
  exists ci, cj. split; trivial. split; trivial. split.
  - destruct (Qlt_le_dec ci cj) as [Hlt | Hge]; trivial.
    pose proof (average_rank_lt _ ci cj Ini Hlt) as Hr.
    rewrite <- Ei, <- Ej in Hr.
    exfalso. exact (Qlt_not_le _ _ Hr Hle).
  - intros E. apply Htie. rewrite Ei, Ej.
    now rewrite (average_rank_tied _ ci cj E).
Qed.

Lemma longs_have_highest_scores_witness :
  nth_error (long_10 eleven_rows) 10 = Some true
  /\ nth_error eleven_rows 0
     = Some (listed 1 (Some (Qnat 1)) (Some (Qnat 1)) (Some (Qnat 1)))
  /\ rankable (listed 1 (Some (Qnat 1)) (Some (Qnat 1)) (Some (Qnat 1))) = true
  /\ nth_error (long_10 eleven_rows) 0 = Some false
  /\ exists ci cj,
       nth_error (composite_raw eleven_rows) 10 = Some (Some ci)
       /\ nth_error (composite_raw eleven_rows) 0 = Some (Some cj)
       /\ (cj <= ci)%Q.
Proof.
  assert (Ti : nth_error (long_10 eleven_rows) 10 = Some true)
    by (vm_compute; reflexivity).
  assert (Tj : nth_error (long_10 eleven_rows) 0 = Some false)
    by (vm_compute; reflexivity).
  split; [exact Ti|]. split; [reflexivity|]. split; [reflexivity|].
  split; [exact Tj|].
  destruct (longs_have_highest_scores eleven_rows 10 0
              (listed 1 (Some (Qnat 1)) (Some (Qnat 1)) (Some (Qnat 1)))
              Ti eq_refl eq_refl Tj) as (ci & cj & Hi & Hj & Hle & _).
  exists ci, cj. split; [exact Hi|]. split; [exact Hj | exact Hle].
Defined.

(** ** The frame, column by column *)

Lemma map_nth_select (A : Type) (d : A) (u : list bool) :
  forall (col : list A) k,
    length col = length u ->
    map (fun i => nth (i - k) col d)
        (filter (fun i => nth (i - k) u false) (seq k (length u)))
    = select u col.
Proof.
  induction u as [|b u IH]; intros [|a col] k Hlen; try discriminate; trivial.
  assert (Htail :
    map (fun i => nth (i - k) (a :: col) d)
        (filter (fun i => nth (i - k) (b :: u) false) (seq (S k) (length u)))
    = select u col).
  { rewrite <- (IH col (S k)) by (simpl in Hlen; lia).
    rewrite (filter_ext_in (fun i => nth (i - k) (b :: u) false)
               (fun i => nth (i - S k) u false)).
    - apply map_ext_in. intros i Hi. apply filter_In in Hi.
      destruct Hi as [Hi _]. apply in_seq in Hi.
      replace (i - k) with (S (i - S k)) by lia. reflexivity.
    - intros i Hi. apply in_seq in Hi.
      replace (i - k) with (S (i - S k)) by lia. reflexivity. }
  cbn [length seq filter select]. rewrite Nat.sub_diag.
  change (nth 0 (b :: u) false) with b.
  destruct b; cbn [map]; rewrite Htail, ?Nat.sub_diag; reflexivity.
Qed.

Lemma select_map (A B : Type) (g : A -> bool) (f : A -> B) (l : list A) :
  select (map g l) (map f l) = map f (filter g l).
Proof.
  induction l as [|a l IH]; simpl; trivial.
  destruct (g a); now rewrite IH.
Qed.

(** A field of the frame is the column of that field on the rows of the
    universe. *)
Lemma frame_column (A : Type) (d : A) (f : OutputRow -> A) (col : list A)
  (t : Table) :
  length col = length t ->
  (forall i, f (output_row t i) = nth i col d) ->
  map f (make_pipeline t) = select (universe t) col.
Proof.
  intros Hlen Hf. unfold make_pipeline. rewrite map_map.
  rewrite <- (map_nth_select A d (universe t) col 0)
    by (unfold universe; now rewrite length_map).
  unfold universe at 3. rewrite length_map.
  rewrite (filter_ext (fun i => nth (i - 0) (universe t) false)
             (fun i => nth i (universe t) false))
    by (intros i; now rewrite Nat.sub_0_r).
  apply map_ext. intros i. now rewrite Hf, Nat.sub_0_r.
Qed.

Lemma frame_field (A : Type) (d : A) (f : OutputRow -> A)
  (g : SecurityRecord -> A) (t : Table) :
  (forall i, f (output_row t i) = nth i (map g t) d) ->
  map f (make_pipeline t) = map g (filter min_liq_univ t).
Proof.
  intros Hf. rewrite (frame_column A d f (map g t) t).
  - unfold universe. apply select_map.
  - apply length_map.
  - exact Hf.
Qed.

(** X4: the output frame has one row per member of the universe, in the
    order of the table, and carries the row's identifier and its market
    cap, free-cash-flow yield, return-on-equity and 20-day return
    unchanged. *)
Theorem frame_rows (t : Table) :
  length (make_pipeline t) = universe_size t
  /\ map row_sid (make_pipeline t) = map sid (filter min_liq_univ t)
  /\ map out_mktcap (make_pipeline t)
     = map market_cap (filter min_liq_univ t)
  /\ map out_fcf_yield (make_pipeline t)
     = map fcf_yield (filter min_liq_univ t)
  /\ map out_roe (make_pipeline t) = map roe (filter min_liq_univ t)
  /\ map out_ret_20 (make_pipeline t) = map ret_20 (filter min_liq_univ t).
Proof.
  assert (Hsid : map row_sid (make_pipeline t)
                 = map sid (filter min_liq_univ t)).
  { apply (frame_field _ 0). reflexivity. }
  split.
  - rewrite <- (length_map row_sid), Hsid, length_map.
    unfold universe_size. now rewrite count_true_map.
  - split; [exact Hsid|].
    repeat split; apply (frame_field _ None); reflexivity.
Qed.

(** ** Rows outside the universe *)

Lemma select_map_cells (A B : Type) (g : A -> B) (u : list bool) :
  forall c, select u (map g c) = map g (select u c).
Proof.
  induction u as [|b u IH]; intros [|a c]; simpl; trivial.
  destruct b; simpl; now rewrite IH.
Qed.

Lemma select_map2 (A B C : Type) (f : A -> B -> C) (u : list bool) :
  forall a b, select u (map2 f a b) = map2 f (select u a) (select u b).
Proof.
  induction u as [|m u IH]; intros [|x a] [|y b]; simpl; trivial;
    destruct m; simpl; rewrite ?IH; trivial;
    destruct (select u a); trivial.
Qed.

Lemma present_mask_data (u : list bool) :
  forall data, present (mask_data data u) = present (select u data).
Proof.
  unfold mask_data.
  induction u as [|m u IH]; intros [|v data]; simpl; trivial.
  destruct m; simpl; [destruct v|]; now rewrite IH.
Qed.

Lemma select_mask_data (u : list bool) :
  forall data, select u (mask_data data u) = select u data.
Proof.
  unfold mask_data.
  induction u as [|m u IH]; intros [|v data]; simpl; trivial.
  destruct m; now rewrite IH.
Qed.

Lemma select_rank_average (data : Column) (u : Filter) :
  select u (rank_average data u) = rankdata_average (select u data).
Proof.
  unfold rank_average, rankdata_average. cbv zeta.
  now rewrite select_map_cells, select_mask_data, present_mask_data.
Qed.

Lemma select_ordinal_desc (ps : list Q) (u : list bool) :
  forall data seen,
    select u (rankdata_ordinal_desc ps seen (mask_data data u))
    = rankdata_ordinal_desc ps seen (select u data).
Proof.
  unfold mask_data.
  induction u as [|m u IH]; intros [|v data] seen; simpl; trivial.
  destruct m; simpl.
  - destruct v; simpl; now rewrite IH.
  - apply IH.
Qed.

Lemma select_top (N : nat) (data : Column) (u : Filter) :
  select u (top N data u)
  = map (rank_le N)
        (rankdata_ordinal_desc (present (select u data)) [] (select u data)).
Proof.
  unfold top, rank_ordinal_desc. cbv zeta.
  now rewrite select_map_cells, select_ordinal_desc, present_mask_data.
Qed.

Lemma select_all (A : Type) (u : list bool) :
  forall c : list A,
    length c = length u -> Forall (fun b => b = true) u -> select u c = c.
Proof.
  induction u as [|m u IH]; intros [|a c] Hlen Hall; try discriminate; trivial.
  inversion Hall as [|? ? -> Hu]; subst. simpl. rewrite IH; trivial.
  simpl in Hlen. lia.
Qed.

Lemma mask_data_all (u : list bool) :
  forall data,
    length data = length u -> Forall (fun b => b = true) u ->
    mask_data data u = data.
Proof.
  unfold mask_data.
  induction u as [|m u IH]; intros [|v data] Hlen Hall; try discriminate;
    trivial.
  inversion Hall as [|? ? -> Hu]; subst. simpl. rewrite IH; trivial.
  simpl in Hlen. lia.
Qed.

Lemma universe_filtered (t : Table) :
  Forall (fun b => b = true) (universe (filter min_liq_univ t)).
Proof.
  unfold universe. apply Forall_forall. intros b Hb.
  apply in_map_iff in Hb. destruct Hb as (r & <- & Hr).
  now apply filter_In in Hr.
Qed.

Lemma length_universe (t : Table) : length (universe t) = length t.
Proof. unfold universe. apply length_map. Qed.

Lemma length_factor_rank (f : SecurityRecord -> fval) (t : Table) :
  length (rank_average (map f t) (universe t)) = length t.
Proof. rewrite length_rank_average, length_map, length_universe. lia. Qed.

Lemma length_composite_raw (t : Table) : length (composite_raw t) = length t.
Proof.
  unfold composite_raw, quality, value, momentum.
  rewrite !length_map2, !length_factor_rank. lia.
Qed.

Lemma length_qvm (t : Table) : length (qvm t) = length t.
Proof.
  unfold qvm.
  rewrite length_rank_average, length_composite_raw, length_universe. lia.
Qed.

Lemma length_fcf_yield_manual (t : Table) :
  length (fcf_yield_manual t) = length t.
Proof. unfold fcf_yield_manual. rewrite length_map2, !length_map. lia. Qed.

(** On a table of universe rows alone the mask changes nothing. *)
Lemma rank_average_filtered (data : Column) (t : Table) :
  length data = length (filter min_liq_univ t) ->
  rank_average data (universe (filter min_liq_univ t))
  = rankdata_average data.
Proof.
  intros Hlen. unfold rank_average.
  rewrite mask_data_all; trivial.
  - now rewrite length_universe.
  - apply universe_filtered.
Qed.

Lemma factor_rank_filtered (f : SecurityRecord -> fval) (t : Table) :
  select (universe t) (rank_average (map f t) (universe t))
  = rank_average (map f (filter min_liq_univ t))
                 (universe (filter min_liq_univ t)).
Proof.
  rewrite select_rank_average, rank_average_filtered by apply length_map.
  unfold universe. now rewrite select_map.
Qed.

Lemma composite_raw_filtered (t : Table) :
  select (universe t) (composite_raw t)
  = composite_raw (filter min_liq_univ t).
Proof.
  unfold composite_raw, quality, value, momentum.
  now rewrite !select_map2, !factor_rank_filtered.
Qed.

Lemma qvm_filtered (t : Table) :
  select (universe t) (qvm t) = qvm (filter min_liq_univ t).
Proof.
  unfold qvm. rewrite select_rank_average, composite_raw_filtered.
  now rewrite rank_average_filtered by apply length_composite_raw.
Qed.

Lemma long_10_filtered (t : Table) :
  select (universe t) (long_10 t) = long_10 (filter min_liq_univ t).
Proof.
  unfold long_10. rewrite select_top, qvm_filtered.
  unfold top, rank_ordinal_desc. cbv zeta.
  rewrite mask_data_all; trivial.
  - now rewrite length_qvm, length_universe.
  - apply universe_filtered.
Qed.

Lemma fcf_yield_manual_filtered (t : Table) :
  select (universe t) (fcf_yield_manual t)
  = fcf_yield_manual (filter min_liq_univ t).
Proof.
  unfold fcf_yield_manual, universe. now rewrite !map2_map, select_map.
Qed.

Lemma rows_ext (l1 l2 : list OutputRow) :
  map row_sid l1 = map row_sid l2 ->
  map out_mktcap l1 = map out_mktcap l2 ->
  map out_fcf_yield l1 = map out_fcf_yield l2 ->
  map out_fcf_yield_manual l1 = map out_fcf_yield_manual l2 ->
  map out_roe l1 = map out_roe l2 ->
  map out_ret_20 l1 = map out_ret_20 l2 ->
  map out_quality l1 = map out_quality l2 ->
  map out_value l1 = map out_value l2 ->
  map out_momentum l1 = map out_momentum l2 ->
  map out_qvm l1 = map out_qvm l2 ->
  map out_long_10 l1 = map out_long_10 l2 ->
  l1 = l2.
Proof.
  revert l2. induction l1 as [|o1 l1 IH]; intros [|o2 l2]; simpl;
    try discriminate; trivial.
  intros H1 H2 H3 H4 H5 H6 H7 H8 H9 H10 H11.
  injection H1 as E1 H1. injection H2 as E2 H2. injection H3 as E3 H3.
  injection H4 as E4 H4. injection H5 as E5 H5. injection H6 as E6 H6.
  injection H7 as E7 H7. injection H8 as E8 H8. injection H9 as E9 H9.
  injection H10 as E10 H10. injection H11 as E11 H11.
  rewrite (IH l2); trivial. f_equal.
  destruct o1, o2. simpl in *. congruence.
Qed.

(** The frame of a table of universe rows alone: its columns as they
    stand. *)
Lemma frame_column_filtered (A : Type) (d : A) (f : OutputRow -> A)
  (col : list A) (t : Table) :
  length col = length (filter min_liq_univ t) ->
  (forall i, f (output_row (filter min_liq_univ t) i) = nth i col d) ->
  map f (make_pipeline (filter min_liq_univ t)) = col.
Proof.
  intros Hlen Hf. rewrite (frame_column A d f col); trivial.
  apply select_all.
  - now rewrite length_universe.
  - apply universe_filtered.
Qed.

(** X5: rows that fail the screen have no influence on the frame: the
    pipeline run on the universe rows alone gives the same frame, ranks
    and top-10 marks included. *)
Theorem screened_out_rows_ignored (t : Table) :
  make_pipeline t = make_pipeline (filter min_liq_univ t).
Proof.
  set (t' := filter min_liq_univ t).
  assert (Hfield : forall (A : Type) (d : A) (f : OutputRow -> A)
                     (g : SecurityRecord -> A),
             (forall t0 i, f (output_row t0 i) = nth i (map g t0) d) ->
             map f (make_pipeline t) = map f (make_pipeline t')).
  { intros A d f g Hf.
    rewrite (frame_field A d f g t (Hf t)).
    unfold t'.
    rewrite (frame_column_filtered A d f (map g (filter min_liq_univ t)));
      trivial.
    apply length_map. }
  assert (Hcol : forall (A : Type) (d : A) (f : OutputRow -> A)
                   (col : Table -> list A),
             (forall t0, length (col t0) = length t0) ->
             (forall t0 i, f (output_row t0 i) = nth i (col t0) d) ->
             select (universe t) (col t) = col t' ->
             map f (make_pipeline t) = map f (make_pipeline t')).
  { intros A d f col Hlen Hf Hsel.
    rewrite (frame_column A d f (col t) t (Hlen t) (Hf t)), Hsel.
    unfold t'. symmetry. apply (frame_column_filtered A d f); trivial. }
  apply rows_ext.
  - apply (Hfield _ 0 row_sid sid). reflexivity.
  - apply (Hfield _ None out_mktcap market_cap). reflexivity.
  - apply (Hfield _ None out_fcf_yield fcf_yield). reflexivity.
  - apply (Hcol _ S754_nan out_fcf_yield_manual fcf_yield_manual).
    + apply length_fcf_yield_manual.
    + reflexivity.
    + apply fcf_yield_manual_filtered.
  - apply (Hfield _ None out_roe roe). reflexivity.
  - apply (Hfield _ None out_ret_20 ret_20). reflexivity.
  - apply (Hcol _ None out_quality quality).
    + intros t0. apply length_factor_rank.
    + reflexivity.
    + apply factor_rank_filtered.
  - apply (Hcol _ None out_value value).
    + intros t0. apply length_factor_rank.
    + reflexivity.
    + apply factor_rank_filtered.
  - apply (Hcol _ None out_momentum momentum).
    + intros t0. apply length_factor_rank.
    + reflexivity.
    + apply factor_rank_filtered.
  - apply (Hcol _ None out_qvm qvm).
    + apply length_qvm.
    + reflexivity.
    + apply qvm_filtered.
  - apply (Hcol _ false out_long_10 long_10).
    + apply length_long_10.
    + reflexivity.
    + apply long_10_filtered.
Qed.

(** ** Which ranks of the frame are defined *)

Lemma in_make_pipeline (t : Table) (o : OutputRow) :
  In o (make_pipeline t) <->
  exists i r, nth_error t i = Some r /\ min_liq_univ r = true
              /\ o = output_row t i.
Proof.
  unfold make_pipeline. rewrite in_map_iff. split.
  - intros (i & <- & Hi). apply filter_In in Hi. destruct Hi as [Hi Hu].
    apply in_seq in Hi. destruct Hi as [_ Hi]. simpl in Hi.
    apply row_index in Hi. destruct Hi as (r & Hr).
    exists i, r. repeat split; trivial.
    unfold universe in Hu.
    now rewrite (nth_error_nth_map _ _ min_liq_univ false t i r Hr) in Hu.
  - intros (i & r & Hr & Hu & ->). exists i. split; trivial.
    apply filter_In. split.
    + apply in_seq. split; [lia|]. simpl. apply row_index. now exists r.
    + unfold universe.
      now rewrite (nth_error_nth_map _ _ min_liq_univ false t i r Hr).
Qed.

(** X6: in every row of the frame a factor rank is defined exactly when
    its base factor is (quality with return-on-equity, value with
    free-cash-flow yield, momentum with the 20-day return); the
    composite rank is defined exactly when all three are; and a row
    marked by [long_10] has a composite rank. *)
Theorem frame_ranks_defined (t : Table) (o : OutputRow) :
  In o (make_pipeline t) ->
  is_some (out_quality o) = is_some (out_roe o)
  /\ is_some (out_value o) = is_some (out_fcf_yield o)
  /\ is_some (out_momentum o) = is_some (out_ret_20 o)
  /\ is_some (out_qvm o)
     = is_some (out_roe o) && is_some (out_fcf_yield o)
       && is_some (out_ret_20 o)
  /\ (out_long_10 o = true -> is_some (out_qvm o) = true).
Proof.
  intros Ho. apply in_make_pipeline in Ho.
  destruct Ho as (i & r & Hr & Hu & ->).
  pose proof (nth_error_factor_rank roe t i r Hr) as Hq.
  pose proof (nth_error_factor_rank fcf_yield t i r Hr) as Hv.
  pose proof (nth_error_factor_rank ret_20 t i r Hr) as Hm.
  rewrite Hu in Hq, Hv, Hm.
  fold (quality t) in Hq. fold (value t) in Hv. fold (momentum t) in Hm.
  pose proof (nth_error_map2 _ _ _ fadd _ _ i _ _
                (nth_error_map2 _ _ _ fadd _ _ i _ _ Hq Hv) Hm) as Hc.
  fold (composite_raw t) in Hc.
  pose proof (nth_error_qvm t i r _ Hr Hc) as Hqvm. rewrite Hu in Hqvm.
  cbn [output_row out_quality out_value out_momentum out_qvm out_roe
       out_fcf_yield out_ret_20 out_long_10].
  rewrite (nth_error_nth _ _ None Hq), (nth_error_nth _ _ None Hv),
    (nth_error_nth _ _ None Hm), (nth_error_nth _ _ None Hqvm).
  rewrite !(nth_error_nth_map _ _ _ None t i r Hr).
  repeat split; try (destruct (roe r), (fcf_yield r), (ret_20 r); reflexivity).
  intros Hl. apply nth_true_nth_error in Hl. unfold long_10 in Hl.
  apply nth_error_top_true in Hl. destruct Hl as (x & Hx).
  apply nth_error_mask_data_Some in Hx. destruct Hx as [Hx _].
  rewrite Hqvm in Hx. injection Hx as Hx. now rewrite Hx.
Qed.

Lemma frame_ranks_defined_witness :
  In (output_row four_rows 2) (make_pipeline four_rows)
  /\ out_roe (output_row four_rows 2) = None
  /\ is_some (out_qvm (output_row four_rows 2)) = false.
Proof.
  assert (Hin : In (output_row four_rows 2) (make_pipeline four_rows)).
  { unfold make_pipeline. apply in_map. simpl. auto. }
  split; [exact Hin|]. split; [reflexivity|].
  destruct (frame_ranks_defined four_rows _ Hin) as (_ & _ & _ & H & _).
  rewrite H. reflexivity.
Defined.

(** ** The longs as a selection of the table *)

Lemma longs_select (context : Context) (t : Table) :
  longs (before_trading_start context t) = select (long_10 t) (map sid t).
Proof.
  rewrite longs_before_trading_start.
  rewrite filter_filter_implied by apply long_10_in_universe.
  rewrite <- (map_nth_select _ 0 (long_10 t) (map sid t) 0)
    by now rewrite length_map, length_long_10.
  rewrite length_long_10.
  rewrite (filter_ext (fun i => nth (i - 0) (long_10 t) false)
             (fun i => nth i (long_10 t) false))
    by (intros i; now rewrite Nat.sub_0_r).
  apply map_ext. intros i. now rewrite Nat.sub_0_r.
Qed.

Lemma list_eq_map (A B : Type) (g : A -> B) (d : list A) :
  forall l : list B,
    length l = length d ->
    (forall i v, nth_error d i = Some v -> nth_error l i = Some (g v)) ->
    l = map g d.
Proof.
  induction d as [|a d IH]; intros [|b l] Hlen H; try discriminate; trivial.
  simpl. f_equal.
  - specialize (H 0 a eq_refl). simpl in H. congruence.
  - apply IH; [simpl in Hlen; lia|]. intros i v Hv. exact (H (S i) v Hv).
Qed.

Lemma long_10_few_rankable (t : Table) :
  length (filter rankable t) <= 10 -> long_10 t = map rankable t.
Proof.
  intros Hn. rewrite <- is_some_qvm. apply list_eq_map.
  - rewrite length_long_10. unfold mask_data.
    rewrite length_map2, length_qvm, length_universe. lia.
  - intros i v Hv. unfold long_10. apply top_takes_all; trivial.
    now rewrite ranked_rows.
Qed.

Lemma longs_few_rankable (context : Context) (t : Table) :
  length (filter rankable t) <= 10 ->
  longs (before_trading_start context t) = map sid (filter rankable t).
Proof.
  intros Hn. rewrite longs_select, (long_10_few_rankable t Hn).
  apply select_map.
Qed.

(** X7: when the table has at most ten rankable rows (universe rows
    with all three base factors present), the longs are exactly those
    rows, in the order of the table; no row is added to fill up the
    ten. *)
Theorem few_rankable_all_selected (context : Context) (t : Table) :
  length (filter rankable t) <= 10 ->
  longs (before_trading_start context t) = map sid (filter rankable t).
Proof. apply longs_few_rankable. Qed.

Lemma few_rankable_all_selected_witness :
  length (filter rankable four_rows) <= 10
  /\ longs (before_trading_start monday four_rows) = [1; 2; 4].
Proof.
  assert (Hn : length (filter rankable four_rows) <= 10).
  { simpl. lia. }
  split; [exact Hn|].
  rewrite (few_rankable_all_selected monday four_rows Hn). reflexivity.
Defined.

Lemma select_incl (A : Type) (u : list bool) :
  forall (c : list A) a, In a (select u c) -> In a c.
Proof.
  induction u as [|b u IH]; intros [|x c] a; simpl; try tauto.
  destruct b; simpl; intuition eauto.
Qed.

Lemma select_NoDup (A : Type) (u : list bool) :
  forall c : list A, NoDup c -> NoDup (select u c).
Proof.
  induction u as [|b u IH]; intros [|x c] H; simpl; try constructor.
  inversion H as [|? ? Hx Hc]; subst. destruct b; [|now apply IH].
  constructor; [|now apply IH]. intros Hin. apply Hx.
  now apply select_incl in Hin.
Qed.

(** X8: [before_trading_start] lists in [security_list] the
    identifiers of the universe rows in table order and leaves the
    portfolio alone; when identifiers are unique in the table, the
    longs are distinct, each is in [security_list], and there are never
    more longs than securities listed. *)
Theorem before_trading_start_lists (context : Context) (t : Table) :
  NoDup (map sid t) ->
  let context' := before_trading_start context t in
  security_list context' = map sid (filter min_liq_univ t)
  /\ positions context' = positions context
  /\ NoDup (security_list context')
  /\ NoDup (longs context')
  /\ (forall s, In s (longs context') -> In s (security_list context'))
  /\ length (longs context') <= length (security_list context').
Proof.
  intros Hnd. cbv zeta.
  assert (Hlist : security_list (before_trading_start context t)
                  = map sid (filter min_liq_univ t)).
  { rewrite security_list_before_trading_start.
    rewrite <- (select_map _ _ min_liq_univ sid t).
    fold (universe t).
    rewrite <- (map_nth_select _ 0 (universe t) (map sid t) 0)
      by now rewrite length_map, length_universe.
    rewrite length_universe.
    rewrite (filter_ext (fun i => nth (i - 0) (universe t) false)
               (fun i => nth i (universe t) false))
      by (intros i; now rewrite Nat.sub_0_r).
    apply map_ext. intros i. now rewrite Nat.sub_0_r. }
  assert (Hincl : forall s, In s (longs (before_trading_start context t)) ->
                            In s (security_list (before_trading_start context t))).
  { intros s Hs. apply in_longs in Hs.
    destruct Hs as (i & r & Hr & Hs & Hu & _).
    apply in_security_list. now exists i, r. }
  assert (Hnl : NoDup (longs (before_trading_start context t))).
  { rewrite longs_select. now apply select_NoDup. }
  split; [exact Hlist|]. split; [reflexivity|]. split.
  - rewrite Hlist, <- (select_map _ _ min_liq_univ sid t).
    now apply select_NoDup.
  - split; [exact Hnl|]. split; [exact Hincl|].
    apply NoDup_incl_length; trivial.
Qed.

Lemma before_trading_start_lists_witness :
  NoDup (map sid four_rows)
  /\ security_list (before_trading_start monday four_rows) = [1; 2; 3; 4]
  /\ NoDup (longs (before_trading_start monday four_rows)).
Proof.
  assert (Hnd : NoDup (map sid four_rows)).
  { simpl. repeat constructor; simpl; intros H;
      repeat (destruct H as [H | H]; [discriminate H|]); exact H. }
  destruct (before_trading_start_lists monday four_rows Hnd)
    as (Hl & _ & _ & Hn & _).
  split; [exact Hnd|]. split; [|exact Hn].
  rewrite Hl. reflexivity.
Defined.

(** ** What rebalance orders, and what it does not *)

(** X9: every order [rebalance] places is for a security that can be
    traded, and is either an open at 1/10 of a long that is not held or
    a close (target 0) of a holding that is not a long.  So a security
    never gets both an open and a close, a security that is neither
    held nor a long gets no order, and no order has another target. *)
Theorem rebalance_orders_only (context : Context)
  (can_trade : security -> bool) (s : security) (w : Q) :
  In (s, w) (orders (rebalance context can_trade)) ->
  can_trade s = true
  /\ ((w = long_weight /\ In s (longs context)
       /\ held s (positions context) = false)
      \/ (w = 0%Q /\ held s (positions context) = true
          /\ ~ In s (longs context)))
  /\ (forall w', In (s, w') (orders (rebalance context can_trade)) -> w' = w).
Proof.
  intros H. apply in_orders_rebalance in H.
  assert (Hm : mem s (longs context) = false -> ~ In s (longs context)).
  { intros Hf Hin. apply mem_In in Hin. congruence. }
  destruct H as [(-> & Hl & Hc & Hh) | (-> & Hh & Hl & Hc)].
  - split; trivial. split; [left; tauto|].
    intros w' H'. apply in_orders_rebalance in H'.
    destruct H' as [(-> & _) | (_ & Hh' & _)]; [reflexivity | congruence].
  - split; trivial. split; [right; auto|].
    intros w' H'. apply in_orders_rebalance in H'.
    destruct H' as [(_ & _ & _ & Hh') | (-> & _)]; [congruence | reflexivity].
Qed.

Lemma rebalance_orders_only_witness :
  In (4, 0%Q) (orders (rebalance monday all_but_2))
  /\ all_but_2 4 = true
  /\ ~ In (4, long_weight) (orders (rebalance monday all_but_2)).
Proof.
  assert (H : In (4, 0%Q) (orders (rebalance monday all_but_2))).
  { simpl. auto. }
  destruct (rebalance_orders_only monday all_but_2 4 0%Q H) as (Hc & _ & Hw).
  split; [exact H|]. split; [exact Hc|].
  intros H'. apply Hw in H'. discriminate H'.
Defined.

Lemma map_fst_orders (context : Context) (can_trade : security -> bool) :
  map fst (orders (rebalance context can_trade))
  = opened context can_trade ++ closed context can_trade.
Proof.
  rewrite orders_rebalance, map_app, !map_map. simpl. now rewrite !map_id.
Qed.

(** X10: when the longs are distinct and the portfolio has one entry per
    security, [rebalance] places at most one order per security. *)
Theorem rebalance_one_order_each (context : Context)
  (can_trade : security -> bool) :
  NoDup (longs context) ->
  NoDup (keys (positions context)) ->
  NoDup (map fst (orders (rebalance context can_trade)))
  /\ length (orders (rebalance context can_trade))
     <= length (longs context) + length (positions context).
Proof.
  intros Hl Hp. split.
  - rewrite map_fst_orders. apply NoDup_app.
    + unfold opened. now apply NoDup_filter.
    + unfold closed. now apply NoDup_filter.
    + intros s Ho Hc. unfold opened in Ho. unfold closed in Hc.
      apply filter_In in Ho. apply filter_In in Hc.
      destruct Ho as [Ho _]. destruct Hc as [_ Hc].
      apply mem_In in Ho. rewrite Ho in Hc. discriminate Hc.
  - rewrite <- (length_map fst), map_fst_orders, length_app.
    unfold opened, closed.
    pose proof (filter_length_le
                  (fun s => can_trade s && negb (held s (positions context)))
                  (longs context)).
    pose proof (filter_length_le
                  (fun s => negb (mem s (longs context)) && can_trade s)
                  (map fst (positions context))).
    rewrite length_map in *. lia.
Qed.

Lemma rebalance_one_order_each_witness :
  NoDup (longs monday)
  /\ NoDup (keys (positions monday))
  /\ NoDup (map fst (orders (rebalance monday all_but_2))).
Proof.
  assert (Hl : NoDup (longs monday)).
  { simpl. repeat constructor; simpl; intros H;
      repeat (destruct H as [H | H]; [discriminate H|]); exact H. }
  assert (Hp : NoDup (keys (positions monday))).
  { simpl. repeat constructor; simpl; intros H;
      repeat (destruct H as [H | H]; [discriminate H|]); exact H. }
  split; [exact Hl|]. split; [exact Hp|].
  apply (rebalance_one_order_each monday all_but_2 Hl Hp).
Defined.

(** X11: when the table has no rankable row (an empty table, an empty
    universe, or a missing factor in every universe row), the day's
    longs are empty and [rebalance] closes every holding that can be
    traded and opens nothing. *)
Theorem empty_selection_liquidates (context : Context) (t : Table)
  (can_trade : security -> bool) :
  filter rankable t = [] ->
  longs (before_trading_start context t) = []
  /\ orders (rebalance (before_trading_start context t) can_trade)
     = map (fun s => (s, 0%Q)) (filter can_trade (keys (positions context))).
Proof.
  intros He.
  assert (Hl : longs (before_trading_start context t) = []).
  { rewrite longs_few_rankable; rewrite He; simpl; trivial. lia. }
  split; trivial.
  rewrite orders_rebalance. unfold opened, closed. rewrite Hl. simpl.
  reflexivity.
Qed.

Lemma empty_selection_liquidates_witness :
  filter rankable [] = []
  /\ orders (rebalance (before_trading_start monday []) all_but_2)
     = [(3, 0%Q); (4, 0%Q)].
Proof.
  split; [reflexivity|].
  rewrite (proj2 (empty_selection_liquidates monday [] all_but_2 eq_refl)).
  reflexivity.
Defined.

Lemma logs_app (a b : list call) : logs (a ++ b) = logs a ++ logs b.
Proof.
  induction a as [|c a IH]; simpl; trivial.
  destruct c; simpl; now rewrite IH.
Qed.

Lemma logs_map_order (f : security -> Q) (l : list security) :
  logs (map (fun s => order_target_percent s (f s)) l) = [].
Proof. induction l as [|s l IH]; simpl; trivial. Qed.

Lemma logs_opening (ct : security -> bool) (ps : list (nat * Q))
  (l : list security) :
  logs (flat_map (fun security =>
                    if ct security then
                      if negb (held security ps)
                      then [order_target_percent security long_weight]
                      else [log_info (DidntOpen security)]
                    else []) l)
  = map DidntOpen (filter (fun s => ct s && held s ps) l).
Proof.
  induction l as [|s l IH]; simpl; trivial.
  rewrite logs_app, IH.
  destruct (ct s); simpl; trivial.
  destruct (held s ps); reflexivity.
Qed.

Lemma zero_target_orders (context : Context) (can_trade : security -> bool) :
  map fst (filter (fun o => Qeq_bool (snd o) 0)
                  (orders (rebalance context can_trade)))
  = closed context can_trade.
Proof.
  rewrite orders_rebalance, filter_app, map_app.
  rewrite !filter_map_swap, !map_map. simpl.
  rewrite (filter_nil_iff _ (fun _ : nat => Qeq_bool long_weight 0))
    by reflexivity.
  rewrite (forallb_filter_id (fun _ : nat => Qeq_bool 0 0)).
  - simpl. apply map_id.
  - apply forallb_forall. reflexivity.
Qed.

(** X12: the log of one [rebalance].  The first message announces
    opening every long, also those that are held or cannot be traded;
    then comes one "didn't open" message for each long that is held and
    can be traded; the last message names exactly the securities of the
    zero-target orders.  A long that cannot be traded is passed over
    without an order and without a message of its own. *)
Theorem rebalance_log (context : Context) (can_trade : security -> bool) :
  logs (rebalance context can_trade)
  = OpeningLongs long_weight (longs context)
    :: map DidntOpen
         (filter (fun s => can_trade s && held s (positions context))
                 (longs context))
    ++ [ClosingPositions
          (map fst (filter (fun o => Qeq_bool (snd o) 0)
                           (orders (rebalance context can_trade))))].
Proof.
  rewrite zero_target_orders.
  unfold rebalance. cbv zeta. cbn [logs].
  rewrite logs_app, logs_opening, logs_app.
  rewrite (logs_map_order (fun _ => 0%Q)). reflexivity.
Qed.

(** ** The portfolio after the fills *)

Lemma held_weight_set_weight (s s' : security) (w : Q) (ps : list (nat * Q)) :
  held_weight s (set_weight s' w ps)
  = if Nat.eqb s s' then Some w else held_weight s ps.
Proof.
  unfold held_weight. induction ps as [|[k v] ps IH]; simpl.
  - now destruct (Nat.eqb s s').
  - destruct (Nat.eqb_spec s' k) as [->|Hk]; simpl.
    + now destruct (Nat.eqb s k).
    + destruct (Nat.eqb_spec s k) as [->|Hsk]; simpl.
      * apply Nat.eqb_neq in Hk. rewrite Nat.eqb_sym in Hk. now rewrite Hk.
      * exact IH.
Qed.

Lemma held_weight_drop_position (s s' : security) (ps : list (nat * Q)) :
  held_weight s (drop_position s' ps)
  = if Nat.eqb s s' then None else held_weight s ps.
Proof.
  unfold held_weight, drop_position. induction ps as [|[k v] ps IH]; simpl.
  - now destruct (Nat.eqb s s').
  - destruct (Nat.eqb_spec s' k) as [->|Hk]; simpl.
    + rewrite IH. now destruct (Nat.eqb s k).
    + destruct (Nat.eqb_spec s k) as [->|Hsk]; simpl.
      * apply Nat.eqb_neq in Hk. rewrite Nat.eqb_sym in Hk. now rewrite Hk.
      * exact IH.
Qed.

Lemma held_weight_fill_opens (s : security) (w : Q) (l : list security) :
  Qeq_bool w 0 = false ->
  forall ps,
    held_weight s (fill_all (map (fun x => (x, w)) l) ps)
    = if mem s l then Some w else held_weight s ps.
Proof.
  intros Hw. unfold fill_all.
  induction l as [|a l IH]; intros ps; simpl fold_left; trivial.
  rewrite IH. unfold fill. rewrite Hw, held_weight_set_weight, mem_cons.
  destruct (Nat.eqb s a), (mem s l); reflexivity.
Qed.

Lemma held_weight_fill_closes (s : security) (l : list security) :
  forall ps,
    held_weight s (fill_all (map (fun x => (x, 0%Q)) l) ps)
    = if mem s l then None else held_weight s ps.
Proof.
  unfold fill_all.
  induction l as [|a l IH]; intros ps; simpl fold_left; trivial.
  rewrite IH. unfold fill. simpl Qeq_bool.
  rewrite held_weight_drop_position, mem_cons.
  destruct (Nat.eqb s a), (mem s l); reflexivity.
Qed.

Lemma held_weight_after (context : Context) (can_trade : security -> bool)
  (s : security) :
  held_weight s (fill_all (orders (rebalance context can_trade))
                          (positions context))
  = if mem s (closed context can_trade) then None
    else if mem s (opened context can_trade) then Some long_weight
         else held_weight s (positions context).
Proof.
  rewrite orders_rebalance. unfold fill_all. rewrite fold_left_app.
  change (fold_left fill ?l ?p) with (fill_all l p).
  now rewrite held_weight_fill_closes, held_weight_fill_opens by reflexivity.
Qed.

(** X13: the portfolio once every order of one [rebalance] is filled.
    A long that was held keeps the weight it had: holdings are never
    brought back to 1/10.  A long that was not held and can be traded is
    then held at 1/10.  A holding that is not a long and can be traded
    is gone.  A security that cannot be traded is left as it was. *)
Theorem portfolio_after_rebalance (context : Context)
  (can_trade : security -> bool) (s : security) :
  let after := fill_all (orders (rebalance context can_trade))
                        (positions context) in
  (In s (longs context) -> held s (positions context) = true ->
   held_weight s after = held_weight s (positions context))
  /\ (In s (longs context) -> held s (positions context) = false ->
      can_trade s = true -> held_weight s after = Some long_weight)
  /\ (~ In s (longs context) -> held s (positions context) = true ->
      can_trade s = true -> held_weight s after = None)
  /\ (can_trade s = false ->
      held_weight s after = held_weight s (positions context)).
Proof.
  cbv zeta. rewrite held_weight_after. unfold opened, closed.
  rewrite !mem_filter.
  change (mem s (map fst (positions context)))
    with (held s (positions context)).
  repeat split.
  - intros Hl Hh. apply mem_In in Hl. rewrite Hl, Hh. simpl.
    now destruct (can_trade s).
  - intros Hl Hh Hc. apply mem_In in Hl. now rewrite Hl, Hh, Hc.
  - intros Hl Hh Hc.
    assert (Hm : mem s (longs context) = false).
    { apply not_true_iff_false. now rewrite mem_In. }
    now rewrite Hm, Hh, Hc.
  - intros Hc. rewrite Hc.
    now destruct (held s (positions context)), (mem s (longs context)).
Qed.

Lemma keys_set_weight (s : security) (w : Q) (ps : list (nat * Q)) :
  NoDup (keys ps) -> NoDup (keys (set_weight s w ps)).
Proof.
  unfold keys. induction ps as [|[k v] ps IH]; simpl; intros H.
  - repeat constructor. tauto.
  - inversion H as [|? ? Hk Hps]; subst.
    destruct (Nat.eqb_spec s k) as [->|Hsk]; simpl.
    + now constructor.
    + constructor; [|now apply IH]. intros Hin.
      apply mem_In in Hin. fold (held k (set_weight s w ps)) in Hin.
      rewrite held_set_weight in Hin. apply orb_true_iff in Hin.
      destruct Hin as [Hin | Hin].
      * apply Nat.eqb_eq in Hin. congruence.
      * apply Hk. now apply mem_In.
Qed.

Lemma keys_drop_position (s : security) (ps : list (nat * Q)) :
  NoDup (keys ps) -> NoDup (keys (drop_position s ps)).
Proof.
  unfold keys, drop_position. intros H.
  pose proof (filter_map_swap (fun k => negb (Nat.eqb s k)) fst ps) as E.
  cbv beta in E. rewrite <- E. now apply NoDup_filter.
Qed.

Lemma keys_fill_all (os : list (nat * Q)) :
  forall ps, NoDup (keys ps) -> NoDup (keys (fill_all os ps)).
Proof.
  unfold fill_all. induction os as [|[s w] os IH]; intros ps H; simpl; trivial.
  apply IH. destruct (Qeq_bool w 0).
  - now apply keys_drop_position.
  - now apply keys_set_weight.
Qed.

(** X14: [record_vars] after a full fill.  When nothing is barred from
    trading, the longs are distinct and the portfolio has one entry per
    security, the number of positions recorded after the fills of one
    [rebalance] is the number of longs. *)
Theorem record_vars_after_rebalance (context : Context)
  (can_trade : security -> bool) :
  (forall s, can_trade s = true) ->
  NoDup (longs context) ->
  NoDup (keys (positions context)) ->
  record_vars
    (with_positions context
       (fill_all (orders (rebalance context can_trade)) (positions context)))
  = length (longs context).
Proof.
  intros Hall Hl Hp. unfold record_vars, with_positions. cbn [positions].
  set (after := fill_all _ _).
  rewrite <- (length_map fst after). fold (keys after).
  apply Permutation_length, NoDup_Permutation; trivial.
  - unfold after. now apply keys_fill_all.
  - intros s. rewrite <- !mem_In. unfold keys.
    change (mem s (map fst after)) with (held s after).
    unfold after. now rewrite held_after_rebalance.
Qed.

Lemma record_vars_after_rebalance_witness :
  (forall s : security, (fun _ => true) s = true)
  /\ NoDup (longs monday)
  /\ NoDup (keys (positions monday))
  /\ record_vars
       (with_positions monday
          (fill_all (orders (rebalance monday (fun _ => true)))
                    (positions monday)))
     = 3.
Proof.
  assert (Hl : NoDup (longs monday)).
  { simpl. repeat constructor; simpl; intros H;
      repeat (destruct H as [H | H]; [discriminate H|]); exact H. }
  assert (Hp : NoDup (keys (positions monday))).
  { simpl. repeat constructor; simpl; intros H;
      repeat (destruct H as [H | H]; [discriminate H|]); exact H. }
  split; [reflexivity|]. split; [exact Hl|]. split; [exact Hp|].
  exact (record_vars_after_rebalance monday (fun _ => true)
           (fun _ => eq_refl) Hl Hp).
Defined.

(** ** From the table to the orders *)

Lemma long_rankable (context : Context) (t : Table) (s : security) :
  In s (longs (before_trading_start context t)) ->
  exists r, In r t /\ sid r = s /\ rankable r = true.
Proof.
  intros Hs. apply in_longs in Hs.
  destruct Hs as (i & r & Hr & Hs & _ & Hl).
  exists r. split; [now apply nth_error_In with i|]. split; trivial.
  unfold long_10 in Hl. apply nth_error_top_true in Hl.
  destruct Hl as (x & Hx).
  destruct (rankable_ranked t i r Hr) as (v & Hv & Hsome).
  rewrite Hx in Hv. injection Hv as <-. now rewrite <- Hsome.
Qed.

Lemma length_longs_le (context : Context) (t : Table) :
  length (longs (before_trading_start context t)) <= 10.
Proof. rewrite length_longs. unfold long_10. rewrite count_top. lia. Qed.

Lemma Qsum_app (a b : list Q) : (Qsum (a ++ b) == Qsum a + Qsum b)%Q.
Proof.
  induction a as [|x a IH]; simpl.
  - ring.
  - fold (Qsum (a ++ b)) (Qsum a). rewrite IH. ring.
Qed.

Lemma Qsum_targets (w : Q) (l : list security) :
  (Qsum (map snd (map (fun s : security => (s, w)) l))
   == w * Qnat (length l))%Q.
Proof.
  rewrite map_map. simpl.
  rewrite (Qsum_constant w).
  - now rewrite length_map.
  - apply Forall_forall. intros y Hy. apply in_map_iff in Hy.
    now destruct Hy as (_ & <- & _).
Qed.

(** X15: from the day's table to the orders.  Whatever the table, the
    portfolio and the tradability, one [rebalance] after
    [before_trading_start] opens at most ten positions, the targets of
    all its orders add up to at most ten times the weight per name, and
    every security it opens is a row of the table that passes the screen
    and has all three base factors. *)
Theorem pipeline_orders_bounded (context : Context) (t : Table)
  (can_trade : security -> bool) :
  let os := orders (rebalance (before_trading_start context t) can_trade) in
  length (filter (fun o => negb (Qeq_bool (snd o) 0)) os) <= 10
  /\ (Qsum (map snd os) <= Qnat 10 * long_weight)%Q
  /\ (forall s, In (s, long_weight) os ->
        exists r, In r t /\ sid r = s /\ rankable r = true).
Proof.
  cbv zeta. set (c := before_trading_start context t).
  assert (Hn : length (opened c can_trade) <= 10).
  { unfold opened.
    pose proof (filter_length_le
                  (fun s => can_trade s && negb (held s (positions c)))
                  (longs c)).
    pose proof (length_longs_le context t). fold c in H0. lia. }
  split; [|split].
  - rewrite orders_rebalance, filter_app, length_app.
    rewrite !filter_map_swap, !length_map. simpl.
    rewrite (filter_nil_iff _ (fun _ : nat => negb (Qeq_bool 0 0)))
      by reflexivity.
    pose proof (filter_length_le (fun _ : nat => true)
                  (opened c can_trade)).
    simpl. lia.
  - rewrite orders_rebalance, map_app, Qsum_app, !Qsum_targets.
    set (n := length (opened c can_trade)) in *.
    set (m := length (closed c can_trade)).
    unfold long_weight, Qnat, inject_Z, Qle, Qplus, Qmult.
    cbn [Qnum Qden]. lia.
  - intros s Hs. apply in_orders_rebalance in Hs.
    destruct Hs as [(_ & Hl & _) | (E & _)]; [|discriminate E].
    now apply (long_rankable context t).
Qed.

(** ** The screen at its edges *)

Lemma fgt_at_most (v : fval) (c x : Q) :
  v = Some x -> (x <= c)%Q -> fgt v c = false.
Proof.
  intros -> Hx. simpl. now apply Qltb_false.
Qed.

(** X16: the screens are strict and treat missing fields unevenly.  A
    row whose market cap, close or average dollar volume is missing, or
    is exactly at its threshold (50,000,000, 1, 200,000) or below, is
    outside the universe.  A row whose exchange identifier is missing is
    not taken for an OTC listing: it is in the universe exactly when the
    three numeric screens pass. *)
Theorem min_liq_univ_edges (r : SecurityRecord) :
  (market_cap r = None \/ close r = None \/ dollar_volume r = None ->
   min_liq_univ r = false)
  /\ (forall x, market_cap r = Some x -> (x <= 50000000)%Q ->
        min_liq_univ r = false)
  /\ (forall x, close r = Some x -> (x <= 1)%Q -> min_liq_univ r = false)
  /\ (forall x, dollar_volume r = Some x -> (x <= 200000)%Q ->
        min_liq_univ r = false)
  /\ (exchange_id r = None ->
      min_liq_univ r
      = fgt (market_cap r) 50000000 && fgt (close r) 1
        && fgt (dollar_volume r) 200000).
Proof.
  unfold min_liq_univ. cbv zeta. repeat split.
  - intros [H | [H | H]]; rewrite H; simpl;
      rewrite ?andb_false_r; reflexivity.
  - intros x Hx Hle. now rewrite (fgt_at_most _ _ x Hx Hle).
  - intros x Hx Hle. rewrite (fgt_at_most _ _ x Hx Hle).
    now rewrite andb_false_r.
  - intros x Hx Hle. rewrite (fgt_at_most _ _ x Hx Hle).
    now rewrite andb_false_r.
  - intros H. rewrite H. simpl. now rewrite andb_true_r.
Qed.

(** ** The ranks against the specification's ranking *)

Lemma participants_present (data : Column) (mask : Filter) :
  participants data mask = present (mask_data data mask).
Proof.
  unfold participants, mask_data. revert mask.
  induction data as [|v data IH]; intros [|m mask]; simpl; trivial.
  rewrite IH. now destruct v, m.
Qed.

Lemma average_rank_is_tie_mean (ps : list Q) (x : Q) :
  In x ps -> (average_rank ps x == tie_mean ps x)%Q.
Proof.
  intros Hin. unfold tie_mean.
  destruct (average_rank_closed_form ps x Hin) as (_ & _ & Hmean).
  assert (Hlen : length (ordinal_positions ps x) = count_eq x ps).
  { now rewrite ordinal_positions_block, length_seq. }
  pose proof (count_eq_pos x ps Hin) as Hpos.
  rewrite <- Hmean, Hlen. field.
  unfold Qnat, Qeq. simpl. lia.
Qed.

Lemma tied_ranks_cells (F : Q -> Q) (x : Q) (data : Column) :
  forall mask,
    flat_map (fun p : option Q * bool * option Q =>
                match p with
                | (Some y, true, Some r) => if Qeq_bool y x then [r] else []
                | _ => []
                end)
             (combine (combine data mask)
                      (map (fun v => match v with
                                     | Some z => Some (F z)
                                     | None => None
                                     end) (mask_data data mask)))
    = map F (filter (fun y => Qeq_bool y x) (present (mask_data data mask))).
Proof.
  unfold mask_data.
  induction data as [|v data IH]; intros [|m mask]; simpl; trivial.
  rewrite IH. destruct v as [y|], m; simpl; trivial.
  now destruct (Qeq_bool y x).
Qed.

(** C2: for any column and mask, a participant (a cell inside the mask
    with a value) gets a rank between 1 and the number of participants,
    counted among the cells inside the mask that hold a value.  The
    cells tied with it occupy a block of consecutive ordinal positions
    of the sorted participants, as many as there are tied cells; every
    tied participant gets the same rank, which is the arithmetic mean
    of those positions; so the ranks of the tie group add up to the sum
    of the positions.  A cell outside the mask or without a value gets
    no rank. *)
Theorem rank_average_tie_mean (data : Column) (mask : Filter) (i : nat)
  (x : Q) :
  nth_error data i = Some (Some x) ->
  nth_error mask i = Some true ->
  let ps := participants data mask in
  let group := ordinal_positions ps x in
  exists r,
    nth_error (rank_average data mask) i = Some (Some r)
    /\ (1 <= r)%Q /\ (r <= Qnat (length ps))%Q
    /\ group = seq (1 + count_lt x ps) (count_eq x ps)
    /\ 0 < length group
    /\ (r == Qnat (sum_nat group) / Qnat (length group))%Q
    /\ (forall j y,
          nth_error data j = Some (Some y) -> nth_error mask j = Some true ->
          (y == x)%Q ->
          nth_error (rank_average data mask) j = Some (Some r))
    /\ (Qsum (tied_ranks data mask (rank_average data mask) x)
        == Qnat (sum_nat group))%Q
    /\ (forall j v,
          nth_error data j = Some v -> nth_error mask j = Some false ->
          nth_error (rank_average data mask) j = Some None)
    /\ (forall j m,
          nth_error data j = Some None -> nth_error mask j = Some m ->
          nth_error (rank_average data mask) j = Some None).
Proof.
  intros Hd Hm ps group.
  pose proof (nth_error_mask_data data mask i (Some x) true Hd Hm) as Hi.
  cbv iota in Hi.
  assert (Hps : ps = present (mask_data data mask))
    by apply participants_present.
  assert (Hin : In x ps) by (rewrite Hps; eapply in_present; exact Hi).
  destruct (average_rank_closed_form ps x Hin) as (H1 & Hn & Hmean).
  assert (Hlen : length group = count_eq x ps).
  { unfold group. now rewrite ordinal_positions_block, length_seq. }
  assert (Hpos : 0 < length group).
  { rewrite Hlen. now apply count_eq_pos. }
  exists (average_rank ps x).
  split.
  { rewrite Hps. exact (nth_error_rank_average data mask i (Some x) Hi). }
  split; [exact H1|]. split; [exact Hn|].
  split; [apply ordinal_positions_block|]. split; [exact Hpos|].
  split; [apply average_rank_is_tie_mean; exact Hin|].
  split; [|split; [|split]].
  - intros j y Hj Hmj E.
    pose proof (nth_error_mask_data data mask j (Some y) true Hj Hmj) as Hj'.
    cbv iota in Hj'.
    rewrite (nth_error_rank_average data mask j (Some y) Hj').
    rewrite <- Hps. now rewrite (average_rank_tied ps x y E).
  - unfold tied_ranks, rank_average, rankdata_average. cbv zeta.
    rewrite tied_ranks_cells, <- Hps.
    rewrite (Qsum_constant (average_rank ps x)).
    + rewrite length_map. fold (count_eq x ps). exact Hmean.
    + apply Forall_forall. intros r Hr. apply in_map_iff in Hr.
      destruct Hr as (y & <- & Hy). apply filter_In in Hy.
      apply average_rank_tied. apply Qeq_bool_iff. apply Hy.
  - intros j v Hj Hmj.
    pose proof (nth_error_mask_data data mask j v false Hj Hmj) as Hj'.
    cbv iota in Hj'.
    exact (nth_error_rank_average data mask j None Hj').
  - intros j m Hj Hmj.
    pose proof (nth_error_mask_data data mask j None m Hj Hmj) as Hj'.
    assert (Hnone : nth_error (mask_data data mask) j = Some None)
      by (rewrite Hj'; now destruct m).
    exact (nth_error_rank_average data mask j None Hnone).
Qed.

Lemma rank_average_tie_mean_witness :
  nth_error seven_cells 4 = Some (Some 9%Q)
  /\ nth_error tail_rows 4 = Some true
  /\ participants seven_cells tail_rows = [3%Q; 4%Q; 9%Q; 9%Q; 9%Q]
  /\ ordinal_positions (participants seven_cells tail_rows) 9 = [3; 4; 5]
  /\ exists r,
       nth_error (rank_average seven_cells tail_rows) 4 = Some (Some r)
       /\ (r == 4)%Q
       /\ (r <= 5)%Q
       /\ nth_error (rank_average seven_cells tail_rows) 0 = Some None.
Proof.
  split; [reflexivity|]. split; [reflexivity|]. split; [reflexivity|].
  split; [reflexivity|].
  destruct (rank_average_tie_mean seven_cells tail_rows 4 9%Q eq_refl eq_refl)
    as (r & Hr & _ & Hn & _ & _ & Hmean & _ & _ & Hout & _).
  exists r. split; [exact Hr|]. split; [|split].
  - rewrite Hmean. reflexivity.
  - exact Hn.
  - exact (Hout 0 (Some 1%Q) eq_refl eq_refl).
Defined.




